(** * mcmc_random_tool: Markov-chain estimation and posterior sampling

    A shallow embedding of [mcmc_random_tool/model.py],
    [mcmc_random_tool/posterior.py], [mcmc_random_tool/io_utils.py] and
    the statements that open the commands of [mcmc_random_tool/cli.py].

    - Python [int] states are [Z]; a [Counter] of destinations is a
      [gmap Z N] (occurrence counts, built by [+= 1]); the
      [defaultdict(Counter)] of sources is a [gmap Z (gmap Z N)]; a Python
      [set] of states is a [gset Z].
    - numpy arrays are lists, a matrix is a list of rows.
    - [np.float64] arithmetic is taken through the interface [Float64],
      which lists exactly the operations the code performs.  The interface
      has two instances: IEEE binary64 ([PrimFloat]), on which the concrete
      scenarios are evaluated bit for bit, and the exact rationals [Qc],
      the idealisation (no rounding, no overflow, no NaN) in which the
      algebraic laws hold.  What is stated of the code in general is
      stated for every instance of the interface, and conditionally on
      the outcome where binary64 can fail an assertion.
    - [np.log] and the log-probability accumulator go through [LogDomain].
    - The numpy generator is explicit state: [Generator] lists the two
      draws the code makes, [GeneratorLaws] the part of the contract of
      [choice] that the statements about [sample_sequence] rely on.
    - Exceptions are the [Raise] branch of [result]. *)

From Stdlib Require Import ZArith QArith Qcanon Qcabs PrimFloat Uint63 Ascii String Lia.
From Stdlib Require FloatOps SpecFloat.
From stdpp Require Import numbers gmap sorting list.

Local Open Scope Z_scope.
#[local] Set Warnings "-inexact-float".

(** ** Exceptions and fallible results *)

Inductive exn : Type :=
| ValueError (msg : string)
| AssertionError (msg : string)
| IndexError
| KeyError.

Inductive result (A : Type) : Type :=
| Ok (a : A)
| Raise (e : exn).
Arguments Ok {A} a.
Arguments Raise {A} e.

#[export] Instance result_ret : MRet result := λ A a, Ok a.
#[export] Instance result_bind : MBind result := λ A B k r,
  match r with
  | Ok a => k a
  | Raise e => Raise e
  end.

(** The error kinds of the specification.  The code raises [ValueError]
    throughout and tells the kinds apart by the message; the message is
    kept without the values its f-string interpolates. *)
Definition EmptyInputError : exn := ValueError "No sequences provided".
Definition NoStatesError : exn := ValueError "No valid states found in sequences".
Definition InvalidAlphaError : exn := ValueError "Alpha must be positive".
Definition InvalidLengthError : exn := ValueError "Length must be positive".
Definition InvalidSampleCountError : exn := ValueError "Number of samples must be positive".
Definition UnknownStateError : exn := ValueError "Start state not found in states".
Definition ShapeMismatchError : exn := ValueError "Transition matrix shape mismatch".
Definition NegativeConcentrationError : exn := ValueError "Alpha parameters must be non-negative".

(** ** The float interface *)

Class Float64 (F : Type) : Type := {
  f_of_Z : Z → F;
  f_add : F → F → F;
  f_sub : F → F → F;
  f_mul : F → F → F;
  f_div : F → F → F;
  f_abs : F → F;
  f_eqb : F → F → bool;
  f_ltb : F → F → bool;
  f_leb : F → F → bool;
}.

Definition f_zero {F} `{Float64 F} : F := f_of_Z 0.
Definition f_one {F} `{Float64 F} : F := f_of_Z 1.
Definition f_of_nat {F} `{Float64 F} (n : nat) : F := f_of_Z (Z.of_nat n).
Definition f_of_N {F} `{Float64 F} (n : N) : F := f_of_Z (Z.of_N n).
Definition f_isnan {F} `{Float64 F} (x : F) : bool := negb (f_eqb x x).
Arguments f_zero : simpl never.
Arguments f_one : simpl never.
Arguments f_of_nat : simpl never.
Arguments f_of_N : simpl never.

(** Exact rationals. *)
Arguments Qc_of_Z : simpl never.
#[export] Instance Qc_float : Float64 Qc := {|
  f_of_Z := Qc_of_Z;
  f_add := Qcplus;
  f_sub := Qcminus;
  f_mul := Qcmult;
  f_div := Qcdiv;
  f_abs := Qcabs;
  f_eqb := λ x y, bool_decide (x = y);
  f_ltb := λ x y, bool_decide (x < y)%Qc;
  f_leb := λ x y, bool_decide (x ≤ y)%Qc;
|}.

(** IEEE binary64.  The conversion from integers rounds to the nearest
    float, ties to even, as Python's does; an integer of magnitude 2^1024
    or more, for which Python raises [OverflowError], becomes an
    infinity. *)
Definition float_of_Z (z : Z) : float :=
  FloatOps.SF2Prim (SpecFloat.binary_normalize 53 1024 z 0 false).

#[export] Instance binary64_float : Float64 float := {|
  f_of_Z := float_of_Z;
  f_add := PrimFloat.add;
  f_sub := PrimFloat.sub;
  f_mul := PrimFloat.mul;
  f_div := PrimFloat.div;
  f_abs := PrimFloat.abs;
  f_eqb := PrimFloat.eqb;
  f_ltb := PrimFloat.ltb;
  f_leb := PrimFloat.leb;
|}.

(** ** numpy helpers *)

Section Numpy.
Context {F : Type} `{Float64 F}.

(** [a.sum()] of a one-dimensional array, added up from left to right, as
    numpy does for an array of fewer than eight elements (longer arrays
    are added pairwise, which differs in the last bits in binary64). *)
Definition np_sum (a : list F) : F := fold_left f_add a f_zero.

(** [np.isclose(x, b)] with numpy's defaults [rtol=1e-05], [atol=1e-08]:
    [|x - b| <= atol + rtol * |b|]. *)
Definition np_rtol : F := f_div f_one (f_of_Z 100000).
Definition np_atol : F := f_div f_one (f_of_Z 100000000).
Definition np_isclose (x b : F) : bool :=
  f_leb (f_abs (f_sub x b)) (f_add np_atol (f_mul np_rtol (f_abs b))).
Definition np_allclose (a : list F) (b : F) : bool :=
  forallb (λ x, np_isclose x b) a.

(** [np.argmax] of a one-dimensional array: the index of the first
    maximum; a NaN counts as a maximum and stops the scan. *)
Fixpoint argmax_from (mp : F) (best j : nat) (a : list F) : nat :=
  match a with
  | [] => best
  | x :: a' =>
      if f_isnan mp then best
      else if negb (f_leb x mp) then argmax_from x j (S j) a'
      else argmax_from mp best (S j) a'
  end.
Definition np_argmax (a : list F) : result nat :=
  match a with
  | [] => Raise (ValueError "attempt to get argmax of an empty sequence")
  | x :: a' => Ok (argmax_from x 0%nat 1%nat a')
  end.

(** [trans_mat.shape == (n, n)]. *)
Definition has_shape (n : nat) (m : list (list F)) : bool :=
  bool_decide (length m = n) && forallb (λ row, bool_decide (length row = n)) m.
End Numpy.
Arguments np_sum : simpl never.
Arguments np_isclose : simpl never.

(** ** model.py *)

(** [enumerate(states)]. *)
Fixpoint enumerate_from {A} (k : nat) (l : list A) : list (nat * A) :=
  match l with
  | [] => []
  | x :: l' => (k, x) :: enumerate_from (S k) l'
  end.
Definition enumerate {A} (l : list A) : list (nat * A) := enumerate_from 0 l.

(** [{state: i for i, state in enumerate(states)}]: a later occurrence of
    a state overwrites an earlier one. *)
Definition index_step (m : gmap Z nat) (p : nat * Z) : gmap Z nat :=
  <[p.2 := p.1]> m.
Definition state_to_idx (states : list Z) : gmap Z nat :=
  fold_left index_step (enumerate states) ∅.

(** [counts[current_state][next_state] += 1] on a [defaultdict(Counter)]. *)
Definition bump (current_state next_state : Z) (counts : gmap Z (gmap Z N))
    : gmap Z (gmap Z N) :=
  let c := default ∅ (counts !! current_state) in
  <[current_state := <[next_state := (default 0 (c !! next_state) + 1)%N]> c]> counts.

(** The inner loop [for i in range(len(seq) - 1)] over adjacent pairs. *)
Fixpoint count_pairs (seq : list Z) (acc : gmap Z (gmap Z N) * gset Z)
    : gmap Z (gmap Z N) * gset Z :=
  match seq with
  | current_state :: ((next_state :: _) as rest) =>
      count_pairs rest
        (bump current_state next_state acc.1,
         {[next_state]} ∪ ({[current_state]} ∪ acc.2))
  | _ => acc
  end.

Definition count_sequence (acc : gmap Z (gmap Z N) * gset Z) (seq : list Z)
    : gmap Z (gmap Z N) * gset Z :=
  if bool_decide (length seq < 2)%nat then acc else count_pairs seq acc.

(** Every source and destination recorded in the counts is a state. *)
Definition counts_closed (acc : gmap Z (gmap Z N) * gset Z) : Prop :=
  ∀ s c d, acc.1 !! s = Some c → is_Some (c !! d) → s ∈ acc.2 ∧ d ∈ acc.2.

Definition build_transition_counts (sequences : list (list Z))
    : result (gmap Z (gmap Z N) * list Z) :=
  match sequences with
  | [] => Raise EmptyInputError
  | _ =>
      let acc := fold_left count_sequence sequences (∅, ∅) in
      if bool_decide (acc.2 = ∅) then Raise NoStatesError
      else Ok (acc.1, merge_sort Z.le (elements acc.2))
  end.

(** Subscripting: a missing key or index raises. *)
Definition lookup_or {A} (e : exn) (o : option A) : result A :=
  match o with
  | Some a => Ok a
  | None => Raise e
  end.

Section Model.
Context {F : Type} `{Float64 F}.

(** [sum(state_counts.values())]. *)
Definition counter_total (state_counts : gmap Z N) : N :=
  map_fold (λ _ count acc, (acc + count)%N) 0%N state_counts.

(** One row of the smoothed matrix for a state that is a key of [counts]:
    the loop over [state_counts.items()] writes the observed destinations
    into the zero row ([write_count]), the loop over [range(n)] fills the
    cells still equal to zero ([fill_missing]).  Distinct destinations
    have distinct columns, so the order in which the items are visited
    does not matter; they are folded in the order of the map. *)
Definition write_count (idx : gmap Z nat) (alpha total : F)
    (next_state : Z) (count : N) (row : list F) : list F :=
  match idx !! next_state with
  | Some j => <[j := f_div (f_add (f_of_N count) alpha) total]> row
  | None => row
  end.

Definition fill_missing (alpha total : F) (x : F) : F :=
  if f_eqb x f_zero then f_div alpha total else x.

Definition row_total (n : nat) (alpha : F) (state_counts : gmap Z N) : F :=
  f_add (f_of_N (counter_total state_counts)) (f_mul alpha (f_of_nat n)).

Definition smoothed_row (n : nat) (idx : gmap Z nat) (alpha : F)
    (state_counts : gmap Z N) : list F :=
  let total := row_total n alpha state_counts in
  map (fill_missing alpha total)
    (map_fold (write_count idx alpha total) (replicate n f_zero) state_counts).

(** The body of the loop [for i, state in enumerate(states)]: row [i] of
    the zero-initialised matrix is overwritten, by the smoothed counts
    or by the uniform distribution. *)
Definition estimate_row (counts : gmap Z (gmap Z N)) (n : nat)
    (idx : gmap Z nat) (alpha : F) (state : Z) : list F :=
  match counts !! state with
  | Some state_counts => smoothed_row n idx alpha state_counts
  | None => replicate n (f_div f_one (f_of_nat n))
  end.

(** The matrix as it stands when the loop is over. *)
Definition estimated_matrix (counts : gmap Z (gmap Z N)) (states : list Z)
    (alpha : F) : list (list F) :=
  map (estimate_row counts (length states) (state_to_idx states) alpha) states.

Definition transition_matrix_from_counts (counts : gmap Z (gmap Z N))
    (states : list Z) (alpha : F) : result (list (list F)) :=
  if f_leb alpha f_zero then Raise InvalidAlphaError else
  let matrix := estimated_matrix counts states alpha in
  if negb (forallb (forallb (f_leb f_zero)) matrix)
  then Raise (AssertionError "Negative probabilities found")
  else if negb (np_allclose (map np_sum matrix) f_one)
  then Raise (AssertionError "Rows do not sum to 1")
  else Ok matrix.

(** [start_counts[state_to_idx[first_state]] += 1], for a non-empty
    sequence whose first state is known. *)
Definition count_start (idx : gmap Z nat) (start_counts : list F)
    (seq : list Z) : list F :=
  match seq with
  | [] => start_counts
  | first_state :: _ =>
      match idx !! first_state with
      | Some i => alter (λ c, f_add c f_one) i start_counts
      | None => start_counts
      end
  end.

Definition empirical_start_distribution (sequences : list (list Z))
    (states : list Z) (alpha : F) : result (list F) :=
  if f_leb alpha f_zero then Raise InvalidAlphaError else
  match sequences with
  | [] => Raise EmptyInputError
  | _ =>
      let n := length states in
      let idx := state_to_idx states in
      let start_counts := fold_left (count_start idx) sequences (replicate n f_zero) in
      let denom := f_add (np_sum start_counts) (f_mul alpha (f_of_nat n)) in
      let probs := map (λ c, f_div (f_add c alpha) denom) start_counts in
      if negb (forallb (f_leb f_zero) probs)
      then Raise (AssertionError "Negative start probabilities found")
      else if negb (np_isclose (np_sum probs) f_one)
      then Raise (AssertionError "Start probabilities do not sum to 1")
      else Ok probs
  end.

(** The loop of [argmax_sequence]: [steps] greedy moves from
    [current_state]; the result is the list of appended states. *)
Fixpoint argmax_walk (idx : gmap Z nat) (states : list Z)
    (trans_mat : list (list F)) (steps : nat) (current_state : Z)
    : result (list Z) :=
  match steps with
  | O => Ok []
  | S k =>
      current_idx ← lookup_or KeyError (idx !! current_state);
      row ← lookup_or IndexError (trans_mat !! current_idx);
      next_idx ← np_argmax row;
      next_state ← lookup_or IndexError (states !! next_idx);
      rest ← argmax_walk idx states trans_mat k next_state;
      Ok (next_state :: rest)
  end.

Definition argmax_sequence (start_state : Z) (states : list Z)
    (trans_mat : list (list F)) (len : Z) : result (list Z) :=
  if bool_decide (len < 1) then Raise InvalidLengthError else
  let idx := state_to_idx states in
  match idx !! start_state with
  | None => Raise UnknownStateError
  | Some _ =>
      rest ← argmax_walk idx states trans_mat (Z.to_nat (len - 1)) start_state;
      Ok (start_state :: rest)
  end.
End Model.

(** ** The random generator *)

(** The two draws the code makes on a [np.random.Generator], as
    transitions of the generator state [G]:
    [rng.choice(n, p=p)] and [rng.gamma(alpha_vec, 1.0)]. *)
Class Generator (F G : Type) : Type := {
  rng_choice : nat → list F → G → result (nat * G);
  rng_gamma : list F → G → result (list F * G);
}.

Section Sampling.
Context {F G : Type} `{Float64 F} `{Generator F G}.

(** The loop of [sample_sequence]. *)
Fixpoint sample_walk (states : list Z) (trans_mat : list (list F))
    (n steps current_idx : nat) (g : G) : result (list Z * G) :=
  match steps with
  | O => Ok ([], g)
  | S k =>
      row ← lookup_or IndexError (trans_mat !! current_idx);
      '(next_idx, g1) ← rng_choice n row g;
      next_state ← lookup_or KeyError (states !! next_idx);
      '(rest, g2) ← sample_walk states trans_mat n k next_idx g1;
      Ok (next_state :: rest, g2)
  end.

(** [rng] is the generator passed by the caller, if any; [entropy] is
    the generator [np.random.default_rng()] would return, seeded from
    the operating system.  The final generator state is returned along
    with the sequence. *)
Definition sample_sequence (states : list Z) (start_probs : list F)
    (trans_mat : list (list F)) (len : Z) (rng : option G) (entropy : G)
    : result (list Z * G) :=
  if bool_decide (len < 1) then Raise InvalidLengthError else
  let g := default entropy rng in
  let n := length states in
  if negb (bool_decide (length start_probs = n)) || negb (has_shape n trans_mat)
  then Raise ShapeMismatchError
  else
    '(start_idx, g1) ← rng_choice n start_probs g;
    start_state ← lookup_or KeyError (states !! start_idx);
    '(rest, g2) ← sample_walk states trans_mat n (Z.to_nat (len - 1)) start_idx g1;
    Ok (start_state :: rest, g2).
End Sampling.

(** ** Log-probabilities *)

(** [np.log], the accumulation [log_prob += ...], the literal [0.0] and
    [-np.inf]. *)
Class LogDomain (F L : Type) : Type := {
  l_log : F → L;
  l_add : L → L → L;
  l_zero : L;
  l_neg_inf : L;
}.

Section Scoring.
Context {F L : Type} `{LogDomain F L}.

(** The loop [for i in range(len(seq) - 1)] of [logprob_of_sequence]. *)
Fixpoint logprob_transitions (idx : gmap Z nat) (trans_mat : list (list F))
    (seq : list Z) (log_prob : L) : result L :=
  match seq with
  | current_state :: ((next_state :: _) as rest) =>
      current_idx ← lookup_or KeyError (idx !! current_state);
      next_idx ← lookup_or KeyError (idx !! next_state);
      row ← lookup_or IndexError (trans_mat !! current_idx);
      p ← lookup_or IndexError (row !! next_idx);
      logprob_transitions idx trans_mat rest (l_add log_prob (l_log p))
  | _ => Ok log_prob
  end.

Definition logprob_of_sequence (seq : list Z) (states : list Z)
    (start_probs : list F) (trans_mat : list (list F)) : result L :=
  match seq with
  | [] => Ok l_zero
  | first_state :: _ =>
      let idx := state_to_idx states in
      if negb (forallb (λ state, bool_decide (is_Some (idx !! state))) seq)
      then Ok l_neg_inf
      else
        start_idx ← lookup_or KeyError (idx !! first_state);
        p ← lookup_or IndexError (start_probs !! start_idx);
        logprob_transitions idx trans_mat seq (l_log p)
  end.
End Scoring.

(** ** posterior.py *)

Section Posterior.
Context {F G L : Type} `{Float64 F} `{Generator F G} `{LogDomain F L}.

Definition dirichlet_sample_row (alpha_vec : list F) (g : G)
    : result (list F * G) :=
  if existsb (λ a, f_ltb a f_zero) alpha_vec
  then Raise NegativeConcentrationError
  else if forallb (λ a, f_eqb a f_zero) alpha_vec
  then
    let n := length alpha_vec in
    Ok (replicate n (f_div f_one (f_of_nat n)), g)
  else
    '(samples, g1) ← rng_gamma alpha_vec g;
    let total := np_sum samples in
    Ok (map (λ x, f_div x total) samples, g1).

(** [np.full(n, alpha)] followed by [alpha_vec[j] += count] for every
    observed destination known to [state_to_idx]. *)
Definition add_count (idx : gmap Z nat) (next_state : Z) (count : N)
    (alpha_vec : list F) : list F :=
  match idx !! next_state with
  | Some j => alter (λ a, f_add a (f_of_N count)) j alpha_vec
  | None => alpha_vec
  end.

Definition posterior_concentration (n : nat) (idx : gmap Z nat) (alpha : F)
    (state_counts : gmap Z N) : list F :=
  map_fold (add_count idx) (replicate n alpha) state_counts.

(** The loop [for i, state in enumerate(states)]: one Dirichlet draw per
    state, in order (the array returned by [rng.gamma] has the shape of
    its argument, so each draw fills its row). *)
Fixpoint sample_rows (counts : gmap Z (gmap Z N)) (n : nat)
    (idx : gmap Z nat) (alpha : F) (todo : list Z) (g : G)
    : result (list (list F) * G) :=
  match todo with
  | [] => Ok ([], g)
  | state :: todo' =>
      let alpha_vec :=
        match counts !! state with
        | Some state_counts => posterior_concentration n idx alpha state_counts
        | None => replicate n alpha
        end in
      '(row, g1) ← dirichlet_sample_row alpha_vec g;
      '(rows, g2) ← sample_rows counts n idx alpha todo' g1;
      Ok (row :: rows, g2)
  end.

Definition sample_transition_matrix_posterior (sequences : list (list Z))
    (states : list Z) (alpha : F) (rng : option G) (entropy : G)
    : result (list (list F) * G) :=
  if f_leb alpha f_zero then Raise InvalidAlphaError else
  match sequences with
  | [] => Raise EmptyInputError
  | _ =>
      let g := default entropy rng in
      '(counts, _) ← build_transition_counts sequences;
      let n := length states in
      let idx := state_to_idx states in
      '(trans_mat, g1) ← sample_rows counts n idx alpha states g;
      if negb (forallb (forallb (f_leb f_zero)) trans_mat)
      then Raise (AssertionError "Negative probabilities in sampled matrix")
      else if negb (np_allclose (map np_sum trans_mat) f_one)
      then Raise (AssertionError "Sampled matrix rows do not sum to 1")
      else Ok (trans_mat, g1)
  end.

(** The loop [for i in range(nsamples)]. *)
Fixpoint predictive_loop (sequences : list (list Z)) (states : list Z)
    (start_probs : list F) (alpha : F) (len : Z) (entropy : G)
    (todo : nat) (g : G) : result (list (list Z * L) * G) :=
  match todo with
  | O => Ok ([], g)
  | S k =>
      '(trans_mat, g1) ←
        sample_transition_matrix_posterior sequences states alpha (Some g) entropy;
      '(seq, g2) ← sample_sequence states start_probs trans_mat len (Some g1) entropy;
      lp ← logprob_of_sequence seq states start_probs trans_mat;
      '(sims, g3) ←
        predictive_loop sequences states start_probs alpha len entropy k g2;
      Ok ((seq, lp) :: sims, g3)
  end.

Definition posterior_predictive_sequences (sequences : list (list Z))
    (states : list Z) (start_probs : list F) (alpha : F) (len nsamples : Z)
    (rng : option G) (entropy : G) : result (list (list Z * L) * G) :=
  if f_leb alpha f_zero then Raise InvalidAlphaError
  else if bool_decide (len < 1) then Raise InvalidLengthError
  else if bool_decide (nsamples < 1) then Raise InvalidSampleCountError
  else
    let g := default entropy rng in
    predictive_loop sequences states start_probs alpha len entropy
      (Z.to_nat nsamples) g.
End Posterior.

(** ** Instances for the worked scenarios *)

(** Log-probabilities as uninterpreted expressions: the free [LogDomain]
    over a number type. *)
Inductive log_expr (F : Type) : Type :=
| LZero
| LNegInf
| LLog (p : F)
| LAdd (a b : log_expr F).
Arguments LZero {F}.
Arguments LNegInf {F}.
Arguments LLog {F} p.
Arguments LAdd {F} a b.

#[export] Instance symbolic_log (F : Type) : LogDomain F (log_expr F) := {|
  l_log := LLog;
  l_add := LAdd;
  l_zero := LZero;
  l_neg_inf := LNegInf;
|}.

(** A seeded stand-in for the numpy generator over the rationals: the
    state is a counter, [choice] validates its arguments as numpy does and
    answers [g mod n], [gamma] scales every shape by [g + 1]. *)
Definition stub_choice (n : nat) (p : list Qc) (g : nat) : result (nat * nat) :=
  if bool_decide (n = 0%nat)
  then Raise (ValueError "a must be a positive integer unless no samples are taken")
  else if negb (bool_decide (length p = n))
  then Raise (ValueError "a and p must have same size")
  else if existsb (λ x, bool_decide (x < 0)%Qc) p
  then Raise (ValueError "probabilities are not non-negative")
  else if negb (bool_decide (np_sum p = 1%Qc))
  then Raise (ValueError "probabilities do not sum to 1")
  else Ok ((g mod n)%nat, S g).

Definition stub_gamma (shape : list Qc) (g : nat) : result (list Qc * nat) :=
  if existsb (λ x, bool_decide (x < 0)%Qc) shape
  then Raise (ValueError "shape < 0")
  else Ok (map (λ a, (a * Qc_of_Z (Z.of_nat (S g)))%Qc) shape, S g).

#[export] Instance stub_generator : Generator Qc nat := {|
  rng_choice := stub_choice;
  rng_gamma := stub_gamma;
|}.

(** The counts of the end-to-end scenario [[1,2,3],[2,3,1],[1,2,1]]. *)
Definition scenario_counts : gmap Z (gmap Z N) :=
  {[ 1 := {[ 2 := 2%N ]}; 2 := {[ 3 := 2%N; 1 := 1%N ]}; 3 := {[ 1 := 1%N ]} ]}.

(** ** The generator's contract *)

(** What the statements about [sample_sequence] use of numpy's generator:
    [choice(n, p=p)] accepts a probability vector of length [n > 0] and
    returns an index below [n].  Nothing is assumed of [gamma]: its draws
    can underflow to [0.0], and what is stated of the posterior sampling
    is stated of whatever it returns. *)
Class GeneratorLaws (G : Type) `{!Generator Qc G} : Prop := {
  choice_returns (n : nat) (p : list Qc) (g : G) :
    (0 < n)%nat → length p = n →
    Forall (λ x, 0 ≤ x)%Qc p → np_sum p = 1%Qc →
    ∃ i g', rng_choice n p g = Ok (i, g') ∧ (i < n)%nat;
}.

(** ** Vocabulary of the statements *)

(** Does the sequence start with state [s]; does it start with a state of
    the list. *)
Definition starts_at (s : Z) (seq : list Z) : bool :=
  match seq with
  | [] => false
  | first_state :: _ => bool_decide (first_state = s)
  end.

Definition starts_in (states : list Z) (seq : list Z) : bool :=
  match seq with
  | [] => false
  | first_state :: _ => bool_decide (first_state ∈ states)
  end.

Definition count_if {A} (f : A → bool) (l : list A) : nat :=
  length (List.filter f l).

Definition scenario_states : list Z := [1;2;3].

(** A batch with an empty sequence and a start state outside [1, 2, 3]. *)
Definition start_scenario : list (list Z) := [[1;2]; [9]; []; [2]].

(** The probability the model gives to starting in [s], and to the move
    from [a] to [b]. *)
Definition start_prob {F} (states : list Z) (start_probs : list F) (s : Z)
    : option F :=
  i ← state_to_idx states !! s; start_probs !! i.

Definition transition_prob {F} (states : list Z) (trans_mat : list (list F))
    (a b : Z) : option F :=
  ia ← state_to_idx states !! a;
  ib ← state_to_idx states !! b;
  row ← trans_mat !! ia;
  row !! ib.

(** The consecutive pairs of a sequence. *)
Fixpoint adjacent_pairs (seq : list Z) : list (Z * Z) :=
  match seq with
  | a :: ((b :: _) as rest) => (a, b) :: adjacent_pairs rest
  | _ => []
  end.

(** The model of the tests: start distribution and rotation matrix. *)
Definition scenario_start : list Qc :=
  [Q2Qc (1 # 2); Q2Qc (3 # 10); Q2Qc (1 # 5)].
Definition scenario_matrix : list (list Qc) :=
  [[Q2Qc (1 # 10); Q2Qc (8 # 10); Q2Qc (1 # 10)];
   [Q2Qc (1 # 10); Q2Qc (1 # 10); Q2Qc (8 # 10)];
   [Q2Qc (8 # 10); Q2Qc (1 # 10); Q2Qc (1 # 10)]].
Definition scenario_matrix_binary64 : list (list float) :=
  [[0.1; 0.8; 0.1]; [0.1; 0.1; 0.8]; [0.8; 0.1; 0.1]]%float.

(** [s'] is the greedy successor of [s]: a destination of maximum
    probability in the row of [s], and the lowest state among those. *)
Definition greedy_successor (states : list Z) (trans_mat : list (list Qc))
    (s s' : Z) : Prop :=
  ∃ i row j p,
    states !! i = Some s ∧ trans_mat !! i = Some row ∧
    states !! j = Some s' ∧ row !! j = Some p ∧
    (∀ j' q, row !! j' = Some q → (q ≤ p)%Qc) ∧
    (∀ j' d, states !! j' = Some d → row !! j' = Some p → s' ≤ d).

(** A row is a probability distribution in exact arithmetic: no negative
    entry, and entries that sum to one. *)
Definition is_distribution (row : list Qc) : Prop :=
  Forall (λ x, 0 ≤ x)%Qc row ∧ np_sum row = 1%Qc.

(** A binary64 row has no negative entry and sums to one within the
    tolerance [1e-9]. *)
Definition binary64_row_ok (row : list float) : bool :=
  forallb (PrimFloat.leb 0) row
  && PrimFloat.leb (PrimFloat.abs (PrimFloat.sub (np_sum row) 1)) 1e-9.

(** A transition matrix over [states]: square, with distributions as rows. *)
Definition stochastic (states : list Z) (trans_mat : list (list Qc)) : Prop :=
  length trans_mat = length states ∧
  Forall (λ row, length row = length states ∧
                 Forall (λ x, 0 ≤ x)%Qc row ∧ np_sum row = 1%Qc) trans_mat.

(** A simulated pair was produced by one iteration of the predictive
    loop: some posterior draw of the matrix generated the sequence and
    scored it. *)
Definition scored_under_its_matrix {F G L : Type}
    `{!Float64 F} `{!Generator F G} `{!LogDomain F L}
    (sequences : list (list Z)) (states : list Z) (start_probs : list F)
    (alpha : F) (len : Z) (entropy : G) (sim : list Z * L) : Prop :=
  ∃ g1 trans_mat g2 g3,
    sample_transition_matrix_posterior sequences states alpha (Some g1) entropy
    = Ok (trans_mat, g2) ∧
    sample_sequence states start_probs trans_mat len (Some g2) entropy
    = Ok (sim.1, g3) ∧
    logprob_of_sequence sim.1 states start_probs trans_mat = Ok sim.2.

(** ** Vocabulary of the further properties *)

(** All the adjacent pairs of a batch, and how often a value occurs in a
    list. *)
Definition batch_pairs (sequences : list (list Z)) : list (Z * Z) :=
  concat (map adjacent_pairs sequences).

Definition occurrences {A} `{EqDecision A} (x : A) (l : list A) : nat :=
  count_if (λ y, bool_decide (y = x)) l.

(** [counts[s][d]]: a [defaultdict(Counter)] answers 0 for an absent
    source or destination. *)
Definition counted (counts : gmap Z (gmap Z N)) (s d : Z) : N :=
  default 0%N (counts !! s ≫= (.!! d)).

(** The number of pairs that leave [s], and the counting of one pair. *)
Definition outgoing (s : Z) (pairs : list (Z * Z)) : nat :=
  count_if (λ p, bool_decide (p.1 = s)) pairs.

Definition bump_pair (counts : gmap Z (gmap Z N)) (p : Z * Z)
    : gmap Z (gmap Z N) :=
  bump p.1 p.2 counts.

(** ** io_utils.py *)

(** The three library functions [parse_sequences_from_file] applies to a
    line: [str.strip], [re.split(r"[,\s]+", .)] and [int] ([None] where
    [int] raises [ValueError]). *)
Class TextOps : Type := {
  py_strip : string → string;
  re_split : string → list string;
  py_int : string → option Z;
}.

(** What the function finds at [path]: nothing, a file that is not valid
    UTF-8, or a text file with its lines (no line for a file of size 0).
    Other failures of the operating system are not modelled. *)
Inductive input_file : Type :=
| NoSuchFile
| UndecodableFile
| TextFile (lines : list string).

Inductive io_exn : Type :=
| FileNotFoundError (msg : string)
| PythonError (e : exn).

Inductive io_result (A : Type) : Type :=
| Returned (a : A)
| Failed (e : io_exn).
Arguments Returned {A} a.
Arguments Failed {A} e.

Section Parsing.
Context `{!TextOps}.

Definition in_range (valid_min valid_max value : Z) : bool :=
  bool_decide (valid_min ≤ value) && bool_decide (value ≤ valid_max).

(** The body of [for token in tokens]. *)
Definition keep_token (valid_min valid_max : Z) (seq : list Z)
    (token : string) : list Z :=
  match py_int token with
  | Some value =>
      if in_range valid_min valid_max value then seq ++ [value] else seq
  | None => seq
  end.

(** The body of [for line_num, line in enumerate(f, 1)]. *)
Definition parse_line (valid_min valid_max : Z) (sequences : list (list Z))
    (line : string) : list (list Z) :=
  let line := py_strip line in
  if bool_decide (line = EmptyString) then sequences
  else
    let seq := fold_left (keep_token valid_min valid_max) (re_split line) [] in
    if bool_decide (2 ≤ length seq)%nat then sequences ++ [seq] else sequences.

Definition parse_sequences_from_file (file : input_file)
    (valid_min valid_max : Z) : io_result (list (list Z)) :=
  if bool_decide (valid_min > valid_max)
  then Failed (PythonError (ValueError "valid_min cannot be greater than valid_max"))
  else if bool_decide (valid_min < 0)
  then Failed (PythonError (ValueError "valid_min must be non-negative"))
  else
    match file with
    | NoSuchFile => Failed (FileNotFoundError "Input file not found")
    | TextFile [] => Returned []
    | UndecodableFile => Failed (PythonError (ValueError "File encoding error"))
    | TextFile lines =>
        let sequences := fold_left (parse_line valid_min valid_max) lines [] in
        if bool_decide (sequences = [])
        then Failed (PythonError (ValueError "No valid sequences found in input file"))
        else Returned sequences
    end.
End Parsing.

(** The ASCII fragment of the three library functions: white space is the
    characters 9 to 13 and 28 to 32, an integer is a sign, if any, and
    decimal digits that single underscores may separate. *)
Definition is_space (c : ascii) : bool :=
  let n := nat_of_ascii c in
  ((9 <=? n) && (n <=? 13) || (28 <=? n) && (n <=? 32))%nat.

Definition is_separator (c : ascii) : bool :=
  is_space c || bool_decide (c = ","%char).

Fixpoint drop_spaces (l : list ascii) : list ascii :=
  match l with
  | c :: l' => if is_space c then drop_spaces l' else l
  | [] => []
  end.

Definition ascii_strip (s : string) : string :=
  string_of_list_ascii
    (rev (drop_spaces (rev (drop_spaces (list_ascii_of_string s))))).

Fixpoint split_runs (token : string) (in_run : bool) (s : string)
    : list string :=
  match s with
  | EmptyString => [token]
  | String c s' =>
      if is_separator c
      then if in_run then split_runs EmptyString true s'
           else token :: split_runs EmptyString true s'
      else split_runs (String.append token (String c EmptyString)) false s'
  end.

Definition ascii_split (s : string) : list string :=
  split_runs EmptyString false s.

Definition digit_value (c : ascii) : option Z :=
  let n := nat_of_ascii c in
  if ((48 <=? n) && (n <=? 57))%nat then Some (Z.of_nat n - 48) else None.

(** [pending] tells that a digit must come next. *)
Fixpoint digits_value (acc : Z) (pending : bool) (s : string) : option Z :=
  match s with
  | EmptyString => if pending then None else Some acc
  | String c s' =>
      match digit_value c with
      | Some d => digits_value (10 * acc + d) false s'
      | None =>
          if bool_decide (c = "_"%char) && negb pending
          then digits_value acc true s'
          else None
      end
  end.

Definition ascii_int (s : string) : option Z :=
  match s with
  | String "-"%char s' => Z.opp <$> digits_value 0 true s'
  | String "+"%char s' => digits_value 0 true s'
  | _ => digits_value 0 true s
  end.

#[export] Instance ascii_text : TextOps := {|
  py_strip := ascii_strip;
  re_split := ascii_split;
  py_int := ascii_int;
|}.

(** The file of the out-of-range test. *)
Definition parse_scenario : input_file :=
  TextFile ["1,2,3,40,5"; "6 7 8 9 10"; "   "; "abc, 7"; "0,12,13,14,15"]%string.

Definition parse_scenario_sequences : list (list Z) :=
  [[1; 2; 3; 5]; [6; 7; 8; 9; 10]; [12; 13; 14; 15]].

(** The values one line contributes: its tokens that [int] accepts and
    that lie in the range, in the order of the line. *)
Definition line_values `{!TextOps} (valid_min valid_max : Z) (line : string)
    : list Z :=
  List.filter (in_range valid_min valid_max)
    (omap py_int (re_split (py_strip line))).

Definition is_blank `{!TextOps} (line : string) : bool :=
  bool_decide (py_strip line = EmptyString).

(** The lines that are not blank and contribute two values or more. *)
Definition parsed_lines `{!TextOps} (valid_min valid_max : Z)
    (lines : list string) : list (list Z) :=
  List.filter (λ seq, bool_decide (2 ≤ length seq)%nat)
    (map (line_values valid_min valid_max)
       (List.filter (λ line, negb (is_blank line)) lines)).

(** ** cli.py *)

(** How the modelling statements of a command end: the parser raises, the
    batch is too small, a model function raises (the three make the command
    return 1), or they complete. *)
Inductive cmd_outcome (A : Type) : Type :=
| ParseError (e : io_exn)
| TooFewSequences
| ModelError (e : exn)
| Completed (a : A).
Arguments ParseError {A} e.
Arguments TooFewSequences {A}.
Arguments ModelError {A} e.
Arguments Completed {A} a.

Section Commands.
Context {F G L : Type} `{Float64 F} `{Generator F G} `{LogDomain F L}.
Context `{!TextOps}.

(** The statements that open [cmd_analyze], [cmd_predict] and [cmd_topk],
    from [parse_sequences_from_file] to [empirical_start_distribution]. *)
Definition cmd_analyze_fit (file : input_file) (min_state max_state : Z)
    (alpha : F)
    : cmd_outcome (list (list Z) * gmap Z (gmap Z N) * list Z
                   * list (list F) * list F) :=
  match parse_sequences_from_file file min_state max_state with
  | Failed e => ParseError e
  | Returned sequences =>
      if bool_decide (length sequences < 2)%nat then TooFewSequences
      else
        match build_transition_counts sequences with
        | Raise e => ModelError e
        | Ok (counts, states) =>
            match transition_matrix_from_counts counts states alpha with
            | Raise e => ModelError e
            | Ok trans =>
                match empirical_start_distribution sequences states alpha with
                | Raise e => ModelError e
                | Ok start_probs =>
                    Completed (sequences, counts, states, trans, start_probs)
                end
            end
        end
  end.

(** The statements that open [cmd_posterior], up to the simulated
    sequences; [rng] is [default_rng(args.seed)]. *)
Definition cmd_posterior_sims (file : input_file) (min_state max_state : Z)
    (alpha : F) (len nsamples : Z) (rng entropy : G)
    : cmd_outcome (list (list Z * L)) :=
  match parse_sequences_from_file file min_state max_state with
  | Failed e => ParseError e
  | Returned sequences =>
      if bool_decide (length sequences < 2)%nat then TooFewSequences
      else
        match build_transition_counts sequences with
        | Raise e => ModelError e
        | Ok (counts, states) =>
            match empirical_start_distribution sequences states alpha with
            | Raise e => ModelError e
            | Ok start_probs =>
                match posterior_predictive_sequences sequences states
                        start_probs alpha len nsamples (Some rng) entropy with
                | Raise e => ModelError e
                | Ok (sims, _) => Completed sims
                end
            end
        end
  end.
End Commands.

(** ** Vocabulary of the statements on floats *)

(** What the loops of [transition_matrix_from_counts] leave in the column
    of a destination: the quotient written for a counted destination,
    which the fill loop overwrites if it compares equal to zero, and
    [alpha / total] for a destination without a count. *)
Definition smoothed_share {F} `{Float64 F} (alpha total : F)
    (count : option N) : F :=
  match count with
  | Some k => fill_missing alpha total (f_div (f_add (f_of_N k) alpha) total)
  | None => f_div alpha total
  end.

(** [k] times [+= 1] on an entry of [np.zeros]. *)
Definition float_count {F} `{Float64 F} (k : nat) : F :=
  Nat.iter k (λ c, f_add c f_one) f_zero.

(** What the two assertions check of a row: no entry fails [>= 0], and
    the sum passes [np.isclose(., 1.0)]. *)
Definition passes_checks {F} `{Float64 F} (row : list F) : Prop :=
  Forall (λ x, f_leb f_zero x = true) row ∧
  np_isclose (np_sum row) f_one = true.

(** ** Stand-ins for the generator in binary64 *)

(** [choice] validates its arguments as numpy does and answers [g mod n];
    [gamma] scales a shape by [g + 1], and answers [0.0] for a shape below
    [0.01]: numpy's draws from a Gamma distribution of small shape
    underflow to [0.0]. *)
Definition binary64_choice (n : nat) (p : list float) (g : nat)
    : result (nat * nat) :=
  if bool_decide (n = 0%nat)
  then Raise (ValueError "a must be a positive integer unless no samples are taken")
  else if negb (bool_decide (length p = n))
  then Raise (ValueError "a and p must have same size")
  else if existsb f_isnan p
  then Raise (ValueError "probabilities contain NaN")
  else if existsb (λ x, PrimFloat.ltb x 0) p
  then Raise (ValueError "probabilities are not non-negative")
  else if negb (PrimFloat.leb (PrimFloat.abs (PrimFloat.sub (np_sum p) 1)) 1.5e-8)
  then Raise (ValueError "probabilities do not sum to 1")
  else Ok ((g mod n)%nat, S g).

Definition binary64_gamma (shape : list float) (g : nat)
    : result (list float * nat) :=
  if existsb (λ a, PrimFloat.ltb a 0) shape
  then Raise (ValueError "shape < 0")
  else Ok (map (λ a, if PrimFloat.ltb a 0.01 then 0%float
                     else PrimFloat.mul a (float_of_Z (Z.of_nat (S g))))
             shape, S g).

#[export] Instance binary64_generator : Generator float nat := {|
  rng_choice := binary64_choice;
  rng_gamma := binary64_gamma;
|}.

Definition scenario_start_binary64 : list float := [0.5; 0.3; 0.2]%float.

(** Two states, one observed move, and a prior weight whose double is
    beyond the largest float. *)
Definition overflow_counts : gmap Z (gmap Z N) := {[ 1 := {[ 2 := 1%N ]} ]}.
Definition overflow_states : list Z := [1; 2].
Definition overflow_alpha : float := 1e308%float.

(** ** Two generators that draw alike *)

(** Two runs end alike: with the same value and generator states that
    are related, or with the same exception. *)
Definition same_outcome {A G1 G2 : Type} (R : G1 → G2 → Prop)
    (r1 : result (A * G1)) (r2 : result (A * G2)) : Prop :=
  match r1, r2 with
  | Ok (a1, g1), Ok (a2, g2) => a1 = a2 ∧ R g1 g2
  | Raise e1, Raise e2 => e1 = e2
  | _, _ => False
  end.

(** [R] relates states of two generators from which every draw comes out
    alike: generators seeded alike. *)
Definition same_stream {F G1 G2 : Type}
    `{!Generator F G1} `{!Generator F G2} (R : G1 → G2 → Prop) : Prop :=
  (∀ n p g1 g2, R g1 g2 →
     same_outcome R (rng_choice n p g1) (rng_choice n p g2)) ∧
  (∀ shape g1 g2, R g1 g2 →
     same_outcome R (rng_gamma shape g1) (rng_gamma shape g2)).

(** A generator that also keeps count of the draws made. *)
Definition counting_generator {F G : Type} (gen : Generator F G)
    : Generator F (G * nat) := {|
  rng_choice n p s :=
    match @rng_choice F G gen n p s.1 with
    | Ok (i, g') => Ok (i, (g', S s.2))
    | Raise e => Raise e
    end;
  rng_gamma shape s :=
    match @rng_gamma F G gen shape s.1 with
    | Ok (x, g') => Ok (x, (g', S s.2))
    | Raise e => Raise e
    end;
|}.

(** * Properties *)

(** ** [state_to_idx] *)

Section StateIndex.
Implicit Types (states l : list Z) (m : gmap Z nat) (s : Z) (i j k : nat).

Lemma index_fold_notin l k m s :
  s ∉ l → fold_left index_step (enumerate_from k l) m !! s = m !! s.
Proof.
  revert k m. induction l as [|x l IH]; intros k m Hs; [done|].
  apply not_elem_of_cons in Hs as [Hne Hs]. simpl.
  rewrite IH by done. unfold index_step. simpl.
  by rewrite lookup_insert_ne.
Qed.

Lemma index_fold_Some l k m s i :
  fold_left index_step (enumerate_from k l) m !! s = Some i →
  (∃ j, i = (k + j)%nat ∧ l !! j = Some s) ∨ ((s ∉ l) ∧ m !! s = Some i).
Proof.
  revert k m. induction l as [|x l IH]; intros k m Hi; simpl in *.
  - right. split; [apply not_elem_of_nil | done].
  - apply IH in Hi as [(j & -> & Hj)|[Hs Hi]].
    + left. exists (S j). split; [lia | done].
    + unfold index_step in Hi. simpl in Hi.
      destruct (decide (x = s)) as [->|Hne].
      * rewrite lookup_insert_eq in Hi. injection Hi as <-.
        left. exists 0%nat. split; [lia | done].
      * rewrite lookup_insert_ne in Hi by done.
        right. split; [|done]. by apply not_elem_of_cons.
Qed.

Lemma index_fold_NoDup l k m s j :
  NoDup l → l !! j = Some s →
  fold_left index_step (enumerate_from k l) m !! s = Some (k + j)%nat.
Proof.
  revert k m j. induction l as [|x l IH]; intros k m j Hnd Hj; [done|].
  apply NoDup_cons in Hnd as [Hx Hnd]. destruct j as [|j]; simpl in *.
  - injection Hj as ->. rewrite index_fold_notin by done.
    unfold index_step. simpl. rewrite lookup_insert_eq. f_equal. lia.
  - rewrite (IH (S k) _ j) by done. f_equal. lia.
Qed.

Lemma state_to_idx_Some states s i :
  state_to_idx states !! s = Some i → states !! i = Some s.
Proof.
  intros Hi. apply index_fold_Some in Hi as [(j & -> & Hj)|[_ Hi]]; [done|].
  by rewrite lookup_empty in Hi.
Qed.

Lemma state_to_idx_lt states s i :
  state_to_idx states !! s = Some i → (i < length states)%nat.
Proof. intros Hi. eapply lookup_lt_Some, state_to_idx_Some, Hi. Qed.

Lemma state_to_idx_None states s :
  state_to_idx states !! s = None ↔ s ∉ states.
Proof.
  split.
  - intros Hnone Hin. revert Hnone. unfold state_to_idx, enumerate.
    generalize 0%nat (∅ : gmap Z nat).
    induction states as [|x l IH]; intros k m Hnone; [by inversion Hin|].
    simpl in Hnone. destruct (decide (s ∈ l)) as [Hl|Hl].
    + by apply (IH Hl (S k) (index_step m (k, x))).
    + rewrite index_fold_notin in Hnone by done.
      apply elem_of_cons in Hin as [->|?]; [|done].
      unfold index_step in Hnone. simpl in Hnone.
      by rewrite lookup_insert_eq in Hnone.
  - intros Hs. unfold state_to_idx, enumerate.
    by rewrite index_fold_notin, lookup_empty.
Qed.

Lemma state_to_idx_is_Some states s :
  is_Some (state_to_idx states !! s) ↔ s ∈ states.
Proof.
  rewrite <-not_eq_None_Some, state_to_idx_None.
  split; [apply dec_stable | by intros ? ?].
Qed.

Lemma state_to_idx_NoDup states s i :
  NoDup states → states !! i = Some s → state_to_idx states !! s = Some i.
Proof. intros Hnd Hi. by apply (index_fold_NoDup states 0 ∅ s i). Qed.

Lemma state_to_idx_inj states s1 s2 i :
  state_to_idx states !! s1 = Some i → state_to_idx states !! s2 = Some i →
  s1 = s2.
Proof.
  intros H1%state_to_idx_Some H2%state_to_idx_Some. congruence.
Qed.
End StateIndex.

(** ** [build_transition_counts] *)

Section Counting.
Implicit Types (seq : list Z) (acc : gmap Z (gmap Z N) * gset Z) (s d : Z).

Lemma count_pairs_states seq acc s :
  s ∈ (count_pairs seq acc).2 ↔ s ∈ acc.2 ∨ ((2 ≤ length seq)%nat ∧ s ∈ seq).
Proof.
  revert acc. induction seq as [|a seq IH]; intros acc; simpl.
  - split; [auto | intros [?|[? ?]]; [done | lia]].
  - destruct seq as [|b rest].
    + simpl. split; [auto | intros [?|[? ?]]; [done | lia]].
    + rewrite IH. simpl. rewrite !elem_of_union, !elem_of_singleton.
      rewrite !elem_of_cons. split.
      * intros [[->|[->|?]]|[_ [->|?]]]; auto 6 with lia.
      * intros [?|[_ [->|[->|Hr]]]]; auto.
        right. split; [|auto]. destruct rest; [by inversion Hr | simpl; lia].
Qed.

Lemma count_sequence_states seq acc s :
  s ∈ (count_sequence acc seq).2 ↔ s ∈ acc.2 ∨ ((2 ≤ length seq)%nat ∧ s ∈ seq).
Proof.
  unfold count_sequence. case_bool_decide.
  - split; [auto | intros [?|[? ?]]; [done | lia]].
  - apply count_pairs_states.
Qed.

Lemma fold_count_states (sequences : list (list Z)) acc s :
  s ∈ (fold_left count_sequence sequences acc).2 ↔
  s ∈ acc.2 ∨ ∃ seq, seq ∈ sequences ∧ (2 ≤ length seq)%nat ∧ s ∈ seq.
Proof.
  revert acc. induction sequences as [|seq sequences IH]; intros acc; simpl.
  - split; [auto | intros [?|(seq & Hin & _)]; [done | by inversion Hin]].
  - rewrite IH, count_sequence_states. split.
    + intros [[?|[? ?]]|(seq' & ? & ? & ?)]; [by left | right..].
      * exists seq. split; [left | done].
      * exists seq'. split; [by right | done].
    + intros [?|(seq' & Hin & ? & ?)]; [by do 2 left|].
      apply elem_of_cons in Hin as [->|?]; [left; by right | right; eauto].
Qed.

Lemma bump_closed a b acc :
  counts_closed acc →
  counts_closed (bump a b acc.1, {[b]} ∪ ({[a]} ∪ acc.2)).
Proof.
  intros Hc s c d Hs Hd. simpl in *. unfold bump in Hs.
  rewrite !elem_of_union, !elem_of_singleton.
  destruct (decide (a = s)) as [->|Hne].
  - rewrite lookup_insert_eq in Hs. injection Hs as <-.
    split; [auto|]. destruct (decide (b = d)) as [->|Hne]; [auto|].
    rewrite lookup_insert_ne in Hd by done.
    destruct (acc.1 !! s) as [c|] eqn:Hc'; simpl in Hd.
    + destruct (Hc s c d Hc' Hd); auto.
    + rewrite lookup_empty in Hd. by destruct Hd.
  - rewrite lookup_insert_ne in Hs by done.
    destruct (Hc s c d Hs Hd); auto.
Qed.

Lemma count_pairs_closed seq acc :
  counts_closed acc → counts_closed (count_pairs seq acc).
Proof.
  revert acc. induction seq as [|a seq IH]; intros acc Hc; simpl; [done|].
  destruct seq as [|b rest]; [done|]. apply IH. by apply bump_closed.
Qed.

Lemma fold_count_closed (sequences : list (list Z)) acc :
  counts_closed acc → counts_closed (fold_left count_sequence sequences acc).
Proof.
  revert acc. induction sequences as [|seq sequences IH]; intros acc Hc; simpl; [done|].
  apply IH. unfold count_sequence. case_bool_decide; [done|].
  by apply count_pairs_closed.
Qed.

Lemma StronglySorted_le_lt (l : list Z) :
  StronglySorted Z.le l → NoDup l → StronglySorted Z.lt l.
Proof.
  induction 1 as [|x l Hs IH Hx]; intros Hnd; [constructor|].
  apply NoDup_cons in Hnd as [Hnx Hnd]. constructor; [auto|].
  rewrite Forall_forall in Hx |- *. intros y Hy.
  specialize (Hx y Hy). assert (x ≠ y) by (intros ->; done). lia.
Qed.

Lemma sorted_states_spec (X : gset Z) :
  StronglySorted Z.lt (merge_sort Z.le (elements X)) ∧
  ∀ s, s ∈ merge_sort Z.le (elements X) ↔ s ∈ X.
Proof.
  split.
  - apply StronglySorted_le_lt.
    + apply StronglySorted_merge_sort; apply _.
    + rewrite merge_sort_Permutation. apply NoDup_elements.
  - intros s. by rewrite merge_sort_Permutation, elem_of_elements.
Qed.

(** What an [Ok] result of [build_transition_counts] looks like. *)
Lemma build_transition_counts_Ok sequences counts states :
  build_transition_counts sequences = Ok (counts, states) →
  sequences ≠ [] ∧
  StronglySorted Z.lt states ∧
  (∀ s, s ∈ states ↔
        ∃ seq, seq ∈ sequences ∧ (2 ≤ length seq)%nat ∧ s ∈ seq) ∧
  (∀ s c d, counts !! s = Some c → is_Some (c !! d) →
            s ∈ states ∧ d ∈ states).
Proof.
  unfold build_transition_counts. destruct sequences as [|seq0 rest]; [done|].
  set (acc := fold_left count_sequence (seq0 :: rest) (∅, ∅)).
  case_bool_decide as Hemp; [done|]. intros [= <- <-].
  destruct (sorted_states_spec acc.2) as [Hsorted Hmem].
  split; [done|]. split; [done|]. split.
  - intros s. rewrite Hmem. unfold acc. rewrite fold_count_states. simpl.
    split; [intros [?|?]; [set_solver | done] | auto].
  - intros s c d Hs Hd. rewrite !Hmem.
    refine (fold_count_closed (seq0 :: rest) (∅, ∅) _ s c d Hs Hd).
    intros ? ? ? Hl. simpl in Hl. by rewrite lookup_empty in Hl.
Qed.
End Counting.

Lemma build_transition_counts_short (sequences : list (list Z)) :
  sequences ≠ [] → (∀ seq, seq ∈ sequences → (length seq < 2)%nat) →
  build_transition_counts sequences = Raise NoStatesError.
Proof.
  intros Hne Hshort. unfold build_transition_counts.
  destruct sequences as [|seq0 rest]; [done|].
  rewrite bool_decide_eq_true_2; [done|].
  apply set_eq. intros s. rewrite fold_count_states. simpl. split.
  - intros [?|(seq & Hin & Hlen & _)]; [done|].
    specialize (Hshort seq Hin). lia.
  - set_solver.
Qed.

Lemma build_transition_counts_returns (sequences : list (list Z)) :
  (∃ seq, seq ∈ sequences ∧ (2 ≤ length seq)%nat) →
  ∃ counts states, build_transition_counts sequences = Ok (counts, states).
Proof.
  intros (seq & Hin & Hlen). unfold build_transition_counts.
  destruct sequences as [|seq0 rest]; [by inversion Hin|].
  rewrite bool_decide_eq_false_2; [by eexists _, _|].
  destruct seq as [|s seq']; [simpl in Hlen; lia|].
  intros Hemp.
  assert (s ∈ (fold_left count_sequence (seq0 :: rest) (∅, ∅)).2) as Hs.
  { apply fold_count_states. right. exists (s :: seq').
    split; [done|]. split; [done | left]. }
  rewrite Hemp in Hs. set_solver.
Qed.

(** C3 (amended).  [build_transition_counts] fails with [EmptyInputError]
    exactly on an empty batch, fails with [NoStatesError] exactly on a
    non-empty batch without a sequence of length at least two, and returns
    exactly on a batch with such a sequence.  What it returns as the state
    space is the strictly increasing list of exactly the states that
    occur in an input sequence of length at least two: the guard
    [len(seq) < 2] skips shorter sequences, which contribute neither
    transitions nor states. *)
Theorem build_transition_counts_state_space (sequences : list (list Z)) :
  (build_transition_counts sequences = Raise EmptyInputError ↔
   sequences = []) ∧
  (build_transition_counts sequences = Raise NoStatesError ↔
   sequences ≠ [] ∧ ∀ seq, seq ∈ sequences → (length seq < 2)%nat) ∧
  ((∃ counts states, build_transition_counts sequences = Ok (counts, states)) ↔
   ∃ seq, seq ∈ sequences ∧ (2 ≤ length seq)%nat) ∧
  (∀ counts states,
     build_transition_counts sequences = Ok (counts, states) →
     StronglySorted Z.lt states ∧
     ∀ s, s ∈ states ↔
          ∃ seq, seq ∈ sequences ∧ (2 ≤ length seq)%nat ∧ s ∈ seq).
Proof.
  assert ((∃ seq, seq ∈ sequences ∧ (2 ≤ length seq)%nat) ∨
          ∀ seq, seq ∈ sequences → (length seq < 2)%nat) as Hcases.
  { destruct (decide (Exists (λ seq, 2 ≤ length seq)%nat sequences))
      as [Hex|Hno].
    - left. by apply Exists_exists in Hex.
    - right. intros seq Hin.
      destruct (decide (length seq < 2)%nat) as [|Hlong]; [done|].
      destruct Hno. apply Exists_exists. exists seq. split; [done | lia]. }
  split; [|split; [|split]].
  - split; [|by intros ->].
    destruct sequences as [|seq0 rest]; [done|]. intros Hraise. exfalso.
    destruct Hcases as [Hsome|Hshort].
    + destruct (build_transition_counts_returns _ Hsome) as (? & ? & Hret).
      congruence.
    + rewrite build_transition_counts_short in Hraise by done. done.
  - split.
    + intros Hraise. destruct sequences as [|seq0 rest]; [done|].
      split; [done|]. destruct Hcases as [Hsome|Hshort]; [|done].
      destruct (build_transition_counts_returns _ Hsome) as (? & ? & Hret).
      congruence.
    + intros [Hne Hshort]. by apply build_transition_counts_short.
  - split; [|apply build_transition_counts_returns].
    intros (counts & states & Hret).
    destruct Hcases as [Hsome|Hshort]; [done|].
    destruct sequences as [|seq0 rest]; [done|].
    rewrite build_transition_counts_short in Hret by done. done.
  - intros counts states Hret.
    by apply build_transition_counts_Ok in Hret as (_ & Hsorted & Hmem & _).
Qed.

Lemma build_transition_counts_state_space_witness :
  StronglySorted Z.lt [1; 2] ∧
  ∀ s, s ∈ [1; 2] ↔
       ∃ seq, seq ∈ [[1; 2]; [7]] ∧ (2 ≤ length seq)%nat ∧ s ∈ seq.
Proof.
  apply (proj2 (proj2 (proj2 (build_transition_counts_state_space
                                [[1; 2]; [7]])))
           {[ 1 := {[ 2 := 1%N ]} ]} [1; 2]).
  vm_compute. reflexivity.
Defined.

(** C3, as stated, fails: state 7 is observed in the batch [[1,2],[7]] but is
    not in the state space, and the batch [[7]] is rejected with
    [NoStatesError] although its sequence contributes a state. *)
Lemma length_one_sequences_contribute_no_state :
  build_transition_counts [[1;2]; [7]] = Ok ({[ 1 := {[ 2 := 1%N ]} ]}, [1;2]) ∧
  7 ∈ [7] ∧ (7 ∉ [1;2]) ∧
  build_transition_counts [[7]] = Raise NoStatesError.
Proof.
  split; [vm_compute; reflexivity|]. split; [left|].
  split; [|vm_compute; reflexivity].
  intros Hin. repeat (apply elem_of_cons in Hin as [?|Hin]; [done|]).
  by inversion Hin.
Qed.


(** ** Boolean checks over arrays *)

Lemma forallb_true_Forall {A} (f : A → bool) (l : list A) :
  forallb f l = true ↔ Forall (λ x, f x = true) l.
Proof.
  induction l as [|x l IH]; simpl.
  - split; [constructor | done].
  - rewrite andb_true_iff, IH, Forall_cons. done.
Qed.

Lemma existsb_false_Forall {A} (f : A → bool) (l : list A) :
  existsb f l = false ↔ Forall (λ x, f x = false) l.
Proof.
  induction l as [|x l IH]; simpl.
  - split; [constructor | done].
  - rewrite orb_false_iff, IH, Forall_cons. done.
Qed.

(** ** Arithmetic of the exact model *)

Section QcArith.
Local Open Scope Qc_scope.
Implicit Types (x y v t : Qc) (l row : list Qc).

Lemma f_zero_Qc : @f_zero Qc _ = 0.
Proof. apply Z2Qc_inj_0. Qed.

Lemma f_one_Qc : @f_one Qc _ = 1.
Proof. apply Z2Qc_inj_1. Qed.

Lemma fold_add_shift l x : fold_left Qcplus l x = x + fold_left Qcplus l 0.
Proof.
  revert x. induction l as [|y l IH]; intros x; simpl.
  - ring.
  - rewrite (IH (x + y)), (IH (0 + y)). ring.
Qed.

Lemma np_sum_nil : np_sum (@nil Qc) = 0.
Proof. apply f_zero_Qc. Qed.

Lemma np_sum_cons x l : np_sum (x :: l) = x + np_sum l.
Proof.
  unfold np_sum. cbn [fold_left f_add Qc_float]. rewrite f_zero_Qc.
  rewrite (fold_add_shift l (0 + x)). ring.
Qed.

Lemma np_sum_replicate (n : nat) x :
  np_sum (replicate n x) = Qc_of_Z (Z.of_nat n) * x.
Proof.
  induction n as [|n IH].
  - cbn [replicate]. change (Z.of_nat 0) with 0%Z.
    rewrite np_sum_nil, Z2Qc_inj_0. ring.
  - rewrite Nat2Z.inj_succ, <-Z.add_1_r, Z2Qc_inj_add, Z2Qc_inj_1.
    cbn [replicate]. rewrite np_sum_cons, IH. ring.
Qed.

Lemma np_sum_insert l (j : nat) y v :
  l !! j = Some y → np_sum (<[j := v]> l) = np_sum l - y + v.
Proof.
  revert j. induction l as [|x l IH]; intros j Hj; [done|].
  destruct j as [|j]; simpl in *.
  - injection Hj as ->. rewrite !np_sum_cons. ring.
  - rewrite !np_sum_cons, (IH j Hj). ring.
Qed.

Lemma np_sum_div l t : np_sum (map (λ x, x / t) l) = np_sum l / t.
Proof.
  induction l as [|x l IH]; cbn [map].
  - rewrite np_sum_nil. unfold Qcdiv. ring.
  - rewrite !np_sum_cons, IH. unfold Qcdiv. ring.
Qed.

Lemma np_sum_nonneg l : Forall (λ x, 0 ≤ x) l → 0 ≤ np_sum l.
Proof.
  induction 1 as [|x l Hx _ IH].
  - by rewrite np_sum_nil.
  - rewrite np_sum_cons. by apply Qcplus_nonneg_nonneg.
Qed.

Lemma np_sum_pos l x :
  Forall (λ x, 0 ≤ x) l → x ∈ l → 0 < x → 0 < np_sum l.
Proof.
  induction 1 as [|y l Hy Hl IH]; intros Hin Hx; [by inversion Hin|].
  rewrite np_sum_cons. apply elem_of_cons in Hin as [<-|Hin].
  - apply Qcplus_pos_nonneg; [done | by apply np_sum_nonneg].
  - apply Qcplus_nonneg_pos; [done | by apply IH].
Qed.

Lemma Qcdiv_self t : t ≠ 0 → t / t = 1.
Proof. intros Ht. unfold Qcdiv. by rewrite Qcmult_inv_r. Qed.

Lemma Qcdiv_pos x t : 0 < x → 0 < t → 0 < x / t.
Proof. intros Hx Ht. apply Qcmult_pos_pos; [done | by apply Qcinv_pos]. Qed.

Lemma Qcdiv_nonneg x t : 0 ≤ x → 0 < t → 0 ≤ x / t.
Proof.
  intros Hx Ht. apply Qcmult_nonneg_nonneg; [done|].
  apply Qclt_le_weak. by apply Qcinv_pos.
Qed.

Lemma Qc_of_N_nonneg (k : N) : 0 ≤ Qc_of_Z (Z.of_N k).
Proof. rewrite <-Z2Qc_inj_0. apply (proj1 (Z2Qc_inj_le _ _)). lia. Qed.

Lemma Qc_of_nat_pos (n : nat) : (0 < n)%nat → 0 < Qc_of_Z (Z.of_nat n).
Proof. intros Hn. rewrite <-Z2Qc_inj_0. apply (proj1 (Z2Qc_inj_lt _ _)). lia. Qed.

Lemma Qc_pos_ne x : 0 < x → x ≠ 0.
Proof. intros Hx ->. exact (Qclt_not_eq _ _ Hx eq_refl). Qed.

(** A value that is exactly one passes [np.isclose(., 1.0)]. *)
Lemma np_isclose_one : np_isclose (1 : Qc) f_one = true.
Proof. rewrite f_one_Qc. vm_compute. reflexivity. Qed.

Lemma np_allclose_ones l : Forall (λ x, x = 1) l → np_allclose l f_one = true.
Proof.
  intros Hl. unfold np_allclose. apply forallb_true_Forall.
  apply Forall_impl with (1 := Hl). intros x ->. apply np_isclose_one.
Qed.

Lemma f_leb_zero_nonneg l :
  Forall (λ x, 0 ≤ x) l → forallb (f_leb f_zero) l = true.
Proof.
  intros Hl. apply forallb_true_Forall, Forall_impl with (1 := Hl).
  intros x Hx. rewrite f_zero_Qc. cbn [f_leb Qc_float].
  by apply bool_decide_eq_true.
Qed.
End QcArith.

(** ** One smoothed row *)

Lemma counter_total_insert (m : gmap Z N) (d : Z) (k : N) :
  m !! d = None → counter_total (<[d := k]> m) = (counter_total m + k)%N.
Proof.
  intros Hd. unfold counter_total. rewrite map_fold_insert_L; [done| |done].
  intros. lia.
Qed.

Section SmoothedRow.
Local Open Scope Qc_scope.
Context (n : nat) (idx : gmap Z nat) (alpha total : Qc).
Hypothesis idx_lt : ∀ d j, idx !! d = Some j → (j < n)%nat.
Hypothesis idx_inj : ∀ d1 d2 j, idx !! d1 = Some j → idx !! d2 = Some j → d1 = d2.
Hypothesis alpha_pos : 0 < alpha.
Hypothesis total_pos : 0 < total.

Let share (k : N) : Qc := (Qc_of_Z (Z.of_N k) + alpha) / total.

Lemma share_pos k : 0 < share k.
Proof.
  apply Qcdiv_pos; [|done].
  apply Qcplus_nonneg_pos; [apply Qc_of_N_nonneg | done].
Qed.

Lemma fill_missing_zero : fill_missing alpha total 0 = alpha / total.
Proof.
  unfold fill_missing. rewrite f_zero_Qc. cbn [f_eqb f_div Qc_float].
  by rewrite bool_decide_eq_true_2.
Qed.

Lemma fill_missing_share k : fill_missing alpha total (share k) = share k.
Proof.
  unfold fill_missing. rewrite f_zero_Qc. cbn [f_eqb f_div Qc_float].
  rewrite bool_decide_eq_false_2; [done|]. apply Qc_pos_ne, share_pos.
Qed.

(** The state of the row after the loop over the items of [m]. *)
Lemma write_counts_spec (m : gmap Z N) :
  let row := map_fold (write_count idx alpha total) (replicate n f_zero) m in
  length row = n ∧
  (∀ d k j, m !! d = Some k → idx !! d = Some j → row !! j = Some (share k)) ∧
  (∀ j, (j < n)%nat → (∀ d, idx !! d = Some j → m !! d = None) →
        row !! j = Some 0) ∧
  Forall (λ x, x = 0 ∨ ∃ k, x = share k) row ∧
  ((∀ d, is_Some (m !! d) → is_Some (idx !! d)) →
   np_sum (map (fill_missing alpha total) row)
   = (Qc_of_Z (Z.of_N (counter_total m)) + alpha * Qc_of_Z (Z.of_nat n)) / total).
Proof.
  cbv zeta.
  apply (map_fold_weak_ind (λ row m,
    length row = n ∧
    (∀ d k j, m !! d = Some k → idx !! d = Some j → row !! j = Some (share k)) ∧
    (∀ j, (j < n)%nat → (∀ d, idx !! d = Some j → m !! d = None) →
          row !! j = Some 0) ∧
    Forall (λ x, x = 0 ∨ ∃ k, x = share k) row ∧
    ((∀ d, is_Some (m !! d) → is_Some (idx !! d)) →
     np_sum (map (fill_missing alpha total) row)
     = (Qc_of_Z (Z.of_N (counter_total m)) + alpha * Qc_of_Z (Z.of_nat n)) / total))).
  - rewrite f_zero_Qc. split; [by rewrite length_replicate|].
    split; [intros d k j Hd; by rewrite lookup_empty in Hd|].
    split; [intros j Hj _; by apply lookup_replicate_2|].
    split; [apply Forall_replicate; by left|]. intros _.
    rewrite fmap_replicate. change (fmap ?f ?l) with (map f l).
    rewrite np_sum_replicate, fill_missing_zero.
    unfold counter_total. rewrite map_fold_empty.
    change (Z.of_N 0) with 0%Z. rewrite Z2Qc_inj_0. unfold Qcdiv. ring.
  - clear m. intros d0 k0 m row Hfresh (Hlen & Hcounted & Hfree & Hshape & Hsum).
    unfold write_count at 1 2 3 4 5.
    destruct (idx !! d0) as [j0|] eqn:Hd0.
    + assert (j0 < n)%nat as Hj0 by eauto.
      assert (row !! j0 = Some 0) as Hrow0.
      { apply Hfree; [done|]. intros d Hd.
        by rewrite (idx_inj d d0 j0 Hd Hd0). }
      cbn [f_div f_add Qc_float]. unfold f_of_N. cbn [f_of_Z Qc_float].
      fold (share k0).
      split; [by rewrite length_insert|]. split; [|split; [|split]].
      * intros d k j Hd Hj. destruct (decide (d0 = d)) as [->|Hne].
        -- rewrite lookup_insert_eq in Hd. injection Hd as <-.
           assert (j = j0) as -> by congruence.
           apply list_lookup_insert_eq. lia.
        -- rewrite lookup_insert_ne in Hd by done.
           assert (j0 ≠ j) by (intros ->; eauto).
           rewrite list_lookup_insert_ne by done. eauto.
      * intros j Hj Hnone. assert (j0 ≠ j) as Hne.
        { intros ->. specialize (Hnone d0 Hd0).
          by rewrite lookup_insert_eq in Hnone. }
        rewrite list_lookup_insert_ne by done. apply Hfree; [done|].
        intros d Hd. specialize (Hnone d Hd).
        rewrite lookup_insert_ne in Hnone; [done|]. intros ->. congruence.
      * apply Forall_insert; [done|]. right. by exists k0.
      * intros Hclosed. rewrite list_fmap_insert.
        change (fmap ?f ?l) with (map f l).
        rewrite (np_sum_insert _ _ (fill_missing alpha total 0)).
        2: { change (map ?f ?l) with (fmap f l).
             by rewrite list_lookup_fmap, Hrow0. }
        rewrite Hsum.
        2: { intros d Hd. apply Hclosed.
             rewrite lookup_insert_ne; [done|]. intros ->.
             rewrite Hfresh in Hd. by destruct Hd. }
        rewrite fill_missing_zero, fill_missing_share.
        rewrite counter_total_insert by done.
        rewrite N2Z.inj_add, Z2Qc_inj_add. unfold share, Qcdiv. ring.
    + split; [done|]. split; [|split; [|split]].
      * intros d k j Hd Hj. rewrite lookup_insert_ne in Hd; [eauto|].
        intros ->. congruence.
      * intros j Hj Hnone. apply Hfree; [done|]. intros d Hd.
        specialize (Hnone d Hd). rewrite lookup_insert_ne in Hnone; [done|].
        intros ->. congruence.
      * done.
      * intros Hclosed. destruct (Hclosed d0) as [j Hj]; [|congruence].
        by rewrite lookup_insert_eq.
Qed.
End SmoothedRow.

(** ** The estimated transition matrix *)

Section TransitionMatrix.
Local Open Scope Qc_scope.
Context (states : list Z) (alpha : Qc).
Hypothesis alpha_pos : 0 < alpha.
Let n := length states.
Let idx := state_to_idx states.

Lemma alpha_check_passes : f_leb alpha f_zero = false.
Proof.
  rewrite f_zero_Qc. cbn [f_leb Qc_float].
  apply bool_decide_eq_false_2. by apply Qclt_not_le.
Qed.

Lemma row_total_Qc (c : gmap Z N) :
  row_total n alpha c
  = Qc_of_Z (Z.of_N (counter_total c)) + alpha * Qc_of_Z (Z.of_nat n).
Proof. reflexivity. Qed.

Lemma row_total_pos (c : gmap Z N) : (0 < n)%nat → 0 < row_total n alpha c.
Proof.
  intros Hn. rewrite row_total_Qc.
  apply Qcplus_nonneg_pos; [apply Qc_of_N_nonneg|].
  apply Qcmult_pos_pos; [done | by apply Qc_of_nat_pos].
Qed.

Lemma smoothed_row_spec (c : gmap Z N) :
  (0 < n)%nat →
  let total := row_total n alpha c in
  let row := smoothed_row n idx alpha c in
  length row = n ∧
  (∀ d k j, c !! d = Some k → idx !! d = Some j →
            row !! j = Some ((Qc_of_Z (Z.of_N k) + alpha) / total)) ∧
  (∀ j, (j < n)%nat → (∀ d, idx !! d = Some j → c !! d = None) →
        row !! j = Some (alpha / total)) ∧
  Forall (λ x, 0 ≤ x) row ∧
  ((∀ d, is_Some (c !! d) → d ∈ states) → np_sum row = 1).
Proof.
  intros Hn total row.
  assert (0 < total) as Htotal by by apply row_total_pos.
  destruct (write_counts_spec n idx alpha total
              (λ d j, state_to_idx_lt states d j)
              (λ d1 d2 j H1 H2, state_to_idx_inj states d1 d2 j H1 H2)
              alpha_pos Htotal c)
    as (Hlen & Hcounted & Hfree & Hshape & Hsum).
  unfold row, smoothed_row. fold total.
  change (map ?f ?l) with (fmap f l).
  split; [by rewrite length_fmap|]. split; [|split; [|split]].
  - intros d k j Hd Hj. rewrite list_lookup_fmap, (Hcounted d k j Hd Hj).
    simpl. by rewrite fill_missing_share.
  - intros j Hj Hnone. rewrite list_lookup_fmap, (Hfree j Hj Hnone).
    simpl. by rewrite fill_missing_zero.
  - apply Forall_fmap, Forall_impl with (1 := Hshape).
    intros x [->|[k ->]]; simpl.
    + rewrite fill_missing_zero. apply Qclt_le_weak. by apply Qcdiv_pos.
    + rewrite fill_missing_share by done. apply Qclt_le_weak.
      by apply share_pos.
  - intros Hclosed. change (fmap ?f ?l) with (map f l). rewrite Hsum.
    + fold n. rewrite <-row_total_Qc. fold total.
      apply Qcdiv_self. by apply Qc_pos_ne.
    + intros d Hd. by apply state_to_idx_is_Some, Hclosed.
Qed.

Lemma uniform_row_spec :
  (0 < n)%nat →
  let row := replicate n (f_div f_one (f_of_nat n) : Qc) in
  Forall (λ x, 0 ≤ x) row ∧ np_sum row = 1.
Proof.
  intros Hn row. unfold row. rewrite f_one_Qc.
  unfold f_of_nat. cbn [f_div f_of_Z Qc_float].
  pose proof (Qc_of_nat_pos n Hn) as Hpos. split.
  - apply Forall_replicate. apply Qcdiv_nonneg; done.
  - rewrite np_sum_replicate. unfold Qcdiv. rewrite Qcmult_1_l.
    apply Qcmult_inv_r. by apply Qc_pos_ne.
Qed.

(** Under the closure condition the assertions hold and the function
    returns the matrix the loop has built. *)
Lemma transition_matrix_from_counts_returns (counts : gmap Z (gmap Z N)) :
  (∀ s c d, counts !! s = Some c → is_Some (c !! d) → d ∈ states) →
  transition_matrix_from_counts counts states alpha
  = Ok (estimated_matrix counts states alpha) ∧
  Forall (λ row, Forall (λ x, 0 ≤ x) row ∧ np_sum row = 1)
    (estimated_matrix counts states alpha).
Proof.
  intros Hclosed.
  assert (Forall (λ row, Forall (λ x, 0 ≤ x) row ∧ np_sum row = 1)
            (estimated_matrix counts states alpha)) as Hrows.
  { unfold estimated_matrix. change (map ?f ?l) with (fmap f l).
    apply Forall_fmap, Forall_forall. intros s Hs. simpl.
    assert (0 < n)%nat as Hn.
    { unfold n. destruct states; [by inversion Hs | simpl; lia]. }
    unfold estimate_row. fold n idx.
    destruct (counts !! s) as [c|] eqn:Hc.
    - destruct (smoothed_row_spec c Hn) as (_ & _ & _ & Hnn & Hsum).
      split; [done|]. apply Hsum. intros d Hd. by apply (Hclosed s c d).
    - by apply uniform_row_spec. }
  split; [|done]. unfold transition_matrix_from_counts.
  rewrite alpha_check_passes.
  rewrite (proj2 (forallb_true_Forall _ _)).
  2: { apply Forall_impl with (1 := Hrows). intros row [Hnn _].
       by apply f_leb_zero_nonneg. }
  rewrite np_allclose_ones; [done|].
  change (map ?f ?l) with (fmap f l). apply Forall_fmap.
  apply Forall_impl with (1 := Hrows). by intros row [_ ?].
Qed.
End TransitionMatrix.

(** ** The end-to-end scenario *)

(** The counts of the end-to-end scenario. *)
Lemma build_counts_scenario :
  build_transition_counts [[1;2;3]; [2;3;1]; [1;2;1]]
  = Ok (scenario_counts, [1;2;3]).
Proof. vm_compute. reflexivity. Qed.

Lemma scenario_counts_closed s c d :
  scenario_counts !! s = Some c → is_Some (c !! d) → d ∈ [1;2;3].
Proof.
  intros Hs Hd.
  destruct (build_transition_counts_Ok _ _ _ build_counts_scenario)
    as (_ & _ & _ & Hclosed).
  by destruct (Hclosed s c d Hs Hd).
Qed.

(** ** [empirical_start_distribution] *)

Ltac qc_nat :=
  repeat first [ progress change (Z.of_nat 0) with 0%Z
               | progress change (Z.of_nat 1) with 1%Z ];
  rewrite ?Z2Qc_inj_0, ?Z2Qc_inj_1.

Section StartDistribution.
Local Open Scope Qc_scope.
Context (states : list Z) (alpha : Qc).
Hypothesis alpha_pos : 0 < alpha.
Let n := length states.
Let idx := state_to_idx states.

Lemma np_sum_alter (l : list Qc) (i : nat) (x : Qc) (f : Qc → Qc) :
  l !! i = Some x → np_sum (alter f i l) = np_sum l - x + f x.
Proof.
  revert i. induction l as [|y l IH]; intros i Hi; [done|].
  destruct i as [|i].
  - injection Hi as ->. change (alter f 0%nat (x :: l)) with (f x :: l).
    rewrite !np_sum_cons. ring.
  - change (alter f (S i) (y :: l)) with (y :: alter f i l).
    rewrite !np_sum_cons, (IH i Hi). ring.
Qed.

Lemma count_if_cons {A} (f : A → bool) (x : A) (l : list A) :
  count_if f (x :: l) = ((if f x then 1 else 0) + count_if f l)%nat.
Proof. unfold count_if. simpl. by destruct (f x). Qed.

(** The counters after the loop over a batch, started from [sc]. *)
Lemma fold_count_start (sequences : list (list Z)) (sc : list Qc) :
  length sc = n →
  let sc' := fold_left (count_start idx) sequences sc in
  length sc' = n ∧
  (∀ s i x, idx !! s = Some i → sc !! i = Some x →
     sc' !! i = Some (x + Qc_of_Z (Z.of_nat (count_if (starts_at s) sequences)))) ∧
  (Forall (λ x, 0 ≤ x) sc → Forall (λ x, 0 ≤ x) sc') ∧
  np_sum sc' = np_sum sc + Qc_of_Z (Z.of_nat (count_if (starts_in states) sequences)).
Proof.
  revert sc. induction sequences as [|seq sequences IH]; intros sc Hlen; simpl.
  - unfold count_if. simpl. qc_nat.
    split; [done|]. split; [|split; [done|]].
    + intros s i x _ ->. f_equal. ring.
    + ring.
  - rewrite !count_if_cons.
    set (sc1 := count_start idx sc seq).
    assert (length sc1 = n) as Hlen1.
    { unfold sc1, count_start. destruct seq as [|a ?]; [done|].
      destruct (idx !! a); [by rewrite length_alter | done]. }
    destruct (IH sc1 Hlen1) as (Hl & Hat & Hnn & Hsum).
    split; [done|]. split; [|split].
    + intros s i x Hs Hx. rewrite count_if_cons.
      assert (sc1 !! i
              = Some (x + Qc_of_Z (Z.of_nat (if starts_at s seq then 1 else 0))))
        as Hx1.
      { unfold sc1, count_start. destruct seq as [|a seq'].
        - simpl. qc_nat. rewrite Hx. f_equal. ring.
        - simpl. destruct (idx !! a) as [ia|] eqn:Ha.
          + destruct (decide (a = s)) as [->|Hne].
            * assert (ia = i) as -> by congruence.
              rewrite list_lookup_alter_eq, Hx. simpl.
              rewrite bool_decide_eq_true_2 by done.
              rewrite f_one_Qc. qc_nat. done.
            * rewrite bool_decide_eq_false_2 by done.
              rewrite list_lookup_alter_ne.
              -- qc_nat. rewrite Hx. f_equal. ring.
              -- intros ->. apply Hne.
                 by apply (state_to_idx_inj states a s i).
          + rewrite bool_decide_eq_false_2.
            * qc_nat. rewrite Hx. f_equal. ring.
            * intros ->. congruence. }
      rewrite (Hat s i _ Hs Hx1). f_equal.
      rewrite Nat2Z.inj_add, Z2Qc_inj_add. ring.
    + intros Hsc. apply Hnn. unfold sc1, count_start.
      destruct seq as [|a seq']; [done|]. destruct (idx !! a); [|done].
      apply Forall_alter; [done|]. intros x _ Hx.
      rewrite f_one_Qc. cbn [f_add Qc_float].
      by apply Qcplus_nonneg_nonneg.
    + rewrite Hsum, Nat2Z.inj_add, Z2Qc_inj_add.
      assert (np_sum sc1
              = np_sum sc
                + Qc_of_Z (Z.of_nat (if starts_in states seq then 1 else 0)))
        as ->; [|ring].
      unfold sc1, count_start. destruct seq as [|a seq'].
      * simpl. qc_nat. ring.
      * simpl. destruct (idx !! a) as [ia|] eqn:Ha.
        -- rewrite bool_decide_eq_true_2
             by (apply state_to_idx_is_Some; by exists ia).
           destruct (lookup_lt_is_Some_2 sc ia) as [x Hx].
           { rewrite Hlen. by apply (state_to_idx_lt states a). }
           rewrite (np_sum_alter sc ia x _ Hx), f_one_Qc. qc_nat.
           cbn [f_add Qc_float]. ring.
        -- rewrite bool_decide_eq_false_2.
           ++ qc_nat. ring.
           ++ intros Hin%state_to_idx_is_Some. fold idx in Hin.
              rewrite Ha in Hin.
              by destruct Hin.
Qed.

Lemma np_sum_smooth (l : list Qc) (t : Qc) :
  np_sum (map (λ c, f_div (f_add c alpha) t) l)
  = (np_sum l + alpha * Qc_of_Z (Z.of_nat (length l))) / t.
Proof.
  cbn [f_div f_add Qc_float]. induction l as [|x l IH].
  - simpl. qc_nat. rewrite np_sum_nil. unfold Qcdiv. ring.
  - cbn [map length]. rewrite !np_sum_cons, IH.
    rewrite Nat2Z.inj_succ, <-Z.add_1_r, Z2Qc_inj_add, Z2Qc_inj_1.
    unfold Qcdiv. ring.
Qed.

Lemma empirical_start_distribution_spec (sequences : list (list Z)) :
  sequences ≠ [] → states ≠ [] →
  let denom := Qc_of_Z (Z.of_nat (count_if (starts_in states) sequences))
               + alpha * Qc_of_Z (Z.of_nat n) in
  ∃ probs,
    empirical_start_distribution sequences states alpha = Ok probs ∧
    length probs = n ∧
    Forall (λ x, 0 ≤ x) probs ∧ np_sum probs = 1 ∧
    ∀ s i, idx !! s = Some i →
      probs !! i
      = Some ((Qc_of_Z (Z.of_nat (count_if (starts_at s) sequences)) + alpha)
              / denom).
Proof.
  intros Hseq Hstates denom.
  assert (0 < n)%nat as Hn by (unfold n; destruct states; [done | simpl; lia]).
  destruct (fold_count_start sequences (replicate n f_zero))
    as (Hlen & Hat & Hnn & Hsum); [by rewrite length_replicate|].
  set (sc := fold_left (count_start idx) sequences (replicate n f_zero)) in *.
  rewrite f_zero_Qc, np_sum_replicate in Hsum.
  assert (np_sum sc + alpha * Qc_of_Z (Z.of_nat n) = denom) as Hdenom.
  { rewrite Hsum. unfold denom. ring. }
  assert (0 < denom) as Hpos.
  { apply Qcplus_nonneg_pos.
    - rewrite <-Z2Qc_inj_0. apply (proj1 (Z2Qc_inj_le _ _)). lia.
    - apply Qcmult_pos_pos; [done | by apply Qc_of_nat_pos]. }
  set (probs := map (λ c, f_div (f_add c alpha) denom) sc).
  assert (Forall (λ x, 0 ≤ x) probs) as Hprobs_nn.
  { unfold probs. change (map ?f ?l) with (fmap f l). apply Forall_fmap.
    eapply Forall_impl; [apply Hnn, Forall_replicate; by rewrite f_zero_Qc|].
    intros x Hx. simpl. cbn [f_div f_add Qc_float].
    apply Qcdiv_nonneg; [|done]. apply Qcplus_nonneg_nonneg; [done|].
    by apply Qclt_le_weak. }
  assert (np_sum probs = 1) as Hprobs_sum.
  { unfold probs. rewrite np_sum_smooth, Hlen, Hdenom.
    apply Qcdiv_self. by apply Qc_pos_ne. }
  exists probs. split; [|split; [|split; [done|split; [done|]]]].
  - unfold empirical_start_distribution. rewrite alpha_check_passes by done.
    destruct sequences as [|seq0 rest]; [done|].
    fold n idx. fold sc.
    change (f_add (np_sum sc) (f_mul alpha (f_of_nat n)))
      with (np_sum sc + alpha * Qc_of_Z (Z.of_nat n)).
    rewrite Hdenom. fold probs.
    rewrite f_leb_zero_nonneg by done. rewrite Hprobs_sum.
    by rewrite np_isclose_one.
  - unfold probs. change (map ?f ?l) with (fmap f l). by rewrite length_fmap.
  - intros s i Hs. unfold probs. change (map ?f ?l) with (fmap f l).
    rewrite list_lookup_fmap.
    rewrite (Hat s i 0 Hs).
    + simpl. cbn [f_div f_add Qc_float]. f_equal. f_equal. ring.
    + rewrite f_zero_Qc. apply lookup_replicate_2.
      by apply (state_to_idx_lt states s).
Qed.
End StartDistribution.

(** ** [logprob_of_sequence] *)

Ltac run_result := cbn [mbind result_bind mret result_ret lookup_or].

Section LogProb.
Context {F L : Type} `{LogDomain F L}.
Context (states : list Z) (start_probs : list F) (trans_mat : list (list F)).

Lemma known_states_check (seq : list Z) :
  forallb (λ state, bool_decide (is_Some (state_to_idx states !! state))) seq = true ↔
  Forall (λ s, s ∈ states) seq.
Proof.
  rewrite forallb_true_Forall. apply Forall_proper; [|done].
  intros s. by rewrite bool_decide_eq_true, state_to_idx_is_Some.
Qed.

Lemma logprob_transitions_step (a b : Z) (rest : list Z) (acc : L) :
  logprob_transitions (state_to_idx states) trans_mat (a :: b :: rest) acc
  = (current_idx ← lookup_or KeyError (state_to_idx states !! a);
     next_idx ← lookup_or KeyError (state_to_idx states !! b);
     row ← lookup_or IndexError (trans_mat !! current_idx);
     p ← lookup_or IndexError (row !! next_idx);
     logprob_transitions (state_to_idx states) trans_mat (b :: rest)
       (l_add acc (l_log p))).
Proof. reflexivity. Qed.

Lemma logprob_transitions_spec (seq : list Z) (acc : L) :
  Forall (λ s, s ∈ states) seq →
  length trans_mat = length states → Forall (λ row, length row = length states) trans_mat →
  ∃ ps,
    Forall2 (λ ab p, transition_prob states trans_mat ab.1 ab.2 = Some p)
      (adjacent_pairs seq) ps ∧
    logprob_transitions (state_to_idx states) trans_mat seq acc
    = Ok (fold_left (λ lp p, l_add lp (l_log p)) ps acc).
Proof.
  intros Hseq Hrows Hcols. revert acc.
  induction seq as [|a seq IH]; intros acc.
  { exists []. split; [constructor | done]. }
  destruct seq as [|b rest].
  { exists []. split; [constructor | done]. }
  apply Forall_cons in Hseq as [Ha Hseq].
  pose proof Hseq as Hb. apply Forall_cons in Hb as [Hb _].
  apply state_to_idx_is_Some in Ha as [ia Hia].
  apply state_to_idx_is_Some in Hb as [ib Hib].
  destruct (lookup_lt_is_Some_2 trans_mat ia) as [row Hrow].
  { rewrite Hrows. by apply (state_to_idx_lt states a). }
  destruct (lookup_lt_is_Some_2 row ib) as [p Hp].
  { rewrite (proj1 (Forall_lookup _ _) Hcols ia row Hrow).
    by apply (state_to_idx_lt states b). }
  destruct (IH Hseq (l_add acc (l_log p))) as (ps & Hps & Hlp).
  exists (p :: ps). split.
  - cbn [adjacent_pairs]. constructor; [|done].
    unfold transition_prob. simpl. rewrite Hia. simpl. rewrite Hib. simpl.
    rewrite Hrow. simpl. done.
  - rewrite logprob_transitions_step, Hia, Hib. run_result.
    rewrite Hrow. run_result. rewrite Hp. exact Hlp.
Qed.

(** A sequence of known states, scored under a model of matching shape. *)
Lemma logprob_known_states (first_state : Z) (rest : list Z) :
  Forall (λ s, s ∈ states) (first_state :: rest) →
  length start_probs = length states →
  length trans_mat = length states →
  Forall (λ row, length row = length states) trans_mat →
  ∃ p0 ps,
    start_prob states start_probs first_state = Some p0 ∧
    Forall2 (λ ab p, transition_prob states trans_mat ab.1 ab.2 = Some p)
      (adjacent_pairs (first_state :: rest)) ps ∧
    logprob_of_sequence (first_state :: rest) states start_probs trans_mat
    = Ok (fold_left (λ lp p, l_add lp (l_log p)) ps (l_log p0)).
Proof.
  intros Hseq Hstart Hrows Hcols.
  pose proof Hseq as Ha. apply Forall_cons in Ha as [Ha _].
  apply state_to_idx_is_Some in Ha as [ia Hia].
  destruct (lookup_lt_is_Some_2 start_probs ia) as [p0 Hp0].
  { rewrite Hstart. by apply (state_to_idx_lt states first_state). }
  destruct (logprob_transitions_spec (first_state :: rest) (l_log p0)
              Hseq Hrows Hcols) as (ps & Hps & Hlp).
  exists p0, ps. split; [|split; [done|]].
  - unfold start_prob. rewrite Hia. done.
  - unfold logprob_of_sequence.
    rewrite (proj2 (known_states_check (first_state :: rest)) Hseq).
    cbn [negb]. rewrite Hia. run_result. rewrite Hp0. exact Hlp.
Qed.
End LogProb.

(** C4.  [logprob_of_sequence] returns [0.0] on the empty sequence;
    returns [-inf], as a value and not as an error, on any sequence that
    contains a state absent from the state space, wherever it stands; and
    otherwise, for a model of consistent shape, returns the log of the
    start probability of the first state to which the logs of the
    consecutive transition probabilities have been added in order. *)
Theorem logprob_of_sequence_cases {F L : Type} `{LogDomain F L}
    (states : list Z) (start_probs : list F) (trans_mat : list (list F)) :
  logprob_of_sequence [] states start_probs trans_mat = Ok l_zero ∧
  (∀ seq s, s ∈ seq → s ∉ states →
     logprob_of_sequence seq states start_probs trans_mat = Ok l_neg_inf) ∧
  (∀ first_state rest,
     Forall (λ s, s ∈ states) (first_state :: rest) →
     length start_probs = length states →
     length trans_mat = length states →
     Forall (λ row, length row = length states) trans_mat →
     ∃ p0 ps,
       start_prob states start_probs first_state = Some p0 ∧
       Forall2 (λ ab p, transition_prob states trans_mat ab.1 ab.2 = Some p)
         (adjacent_pairs (first_state :: rest)) ps ∧
       logprob_of_sequence (first_state :: rest) states start_probs trans_mat
       = Ok (fold_left (λ lp p, l_add lp (l_log p)) ps (l_log p0))).
Proof.
  split; [done|]. split.
  - intros seq s Hin Hnot. destruct seq as [|a seq]; [by inversion Hin|].
    unfold logprob_of_sequence.
    destruct (forallb _ (a :: seq)) eqn:Hall; [|done].
    apply known_states_check in Hall.
    by apply (proj1 (Forall_forall _ _) Hall s) in Hin.
  - apply logprob_known_states.
Qed.

Lemma logprob_of_sequence_cases_witness :
  ∃ p0 ps,
    start_prob scenario_states scenario_start 1 = Some p0 ∧
    Forall2 (λ ab p, transition_prob scenario_states scenario_matrix ab.1 ab.2 = Some p)
      (adjacent_pairs [1;2;3]) ps ∧
    logprob_of_sequence (L := log_expr Qc) [1;2;3]
      scenario_states scenario_start scenario_matrix
    = Ok (fold_left (λ lp p, l_add lp (l_log p)) ps (l_log p0)).
Proof.
  apply (proj2 (proj2 (logprob_of_sequence_cases (L := log_expr Qc)
                         scenario_states scenario_start scenario_matrix))).
  - repeat constructor; apply state_to_idx_is_Some; vm_compute; eauto.
  - reflexivity.
  - reflexivity.
  - repeat constructor.
Defined.

(** ** [argmax_sequence] *)

Section Argmax.
Local Open Scope Qc_scope.
Implicit Types (a row : list Qc) (mp x p : Qc).

Lemma f_isnan_Qc x : f_isnan x = false.
Proof. unfold f_isnan. cbn [f_eqb Qc_float]. by rewrite bool_decide_eq_true_2. Qed.

Lemma argmax_from_spec a mp best j :
  let r := argmax_from mp best j a in
  (r = best ∧ Forall (λ y, y ≤ mp) a) ∨
  (∃ k x, r = (j + k)%nat ∧ a !! k = Some x ∧ mp < x ∧
          Forall (λ y, y ≤ x) a ∧
          ∀ k' y, (k' < k)%nat → a !! k' = Some y → y < x).
Proof.
  revert mp best j. induction a as [|x a IH]; intros mp best j; cbn zeta.
  { left. split; [done | constructor]. }
  cbn [argmax_from]. rewrite f_isnan_Qc. cbn [f_leb Qc_float].
  case_bool_decide as Hle; cbn [negb].
  - destruct (IH mp best (S j)) as [[Hr Hall]|(k & x' & Hr & Hk & Hlt & Hall & Hfirst)].
    + left. split; [done|]. by constructor.
    + right. exists (S k), x'. split; [lia|]. split; [done|]. split; [done|].
      assert (x < x') as Hx by by apply Qcle_lt_trans with mp.
      split; [constructor; [by apply Qclt_le_weak | done]|].
      intros [|k'] y Hk' Hy; simpl in Hy.
      * by injection Hy as <-.
      * apply (Hfirst k' y); [lia | done].
  - apply Qcnot_le_lt in Hle.
    destruct (IH x j (S j)) as [[Hr Hall]|(k & x' & Hr & Hk & Hlt & Hall & Hfirst)].
    + right. exists 0%nat, x. split; [lia|]. split; [done|]. split; [done|].
      split; [constructor; [apply Qcle_refl | done]|]. intros k' y Hk'. lia.
    + right. exists (S k), x'. split; [lia|]. split; [done|].
      split; [by apply Qclt_trans with x|].
      split; [constructor; [by apply Qclt_le_weak | done]|].
      intros [|k'] y Hk' Hy; simpl in Hy.
      * by injection Hy as <-.
      * apply (Hfirst k' y); [lia | done].
Qed.

(** [np.argmax] returns the first index that holds the maximum. *)
Lemma np_argmax_spec row :
  row ≠ [] →
  ∃ i p, np_argmax row = Ok i ∧ row !! i = Some p ∧
    (∀ j q, row !! j = Some q → q ≤ p) ∧
    (∀ j, row !! j = Some p → (i ≤ j)%nat).
Proof.
  destruct row as [|x a]; [done|]. intros _. cbn [np_argmax].
  assert (∀ i p,
    (x :: a) !! i = Some p → Forall (λ y, y ≤ p) (x :: a) →
    (∀ k' y, (k' < i)%nat → (x :: a) !! k' = Some y → y < p) →
    (∀ j q, (x :: a) !! j = Some q → q ≤ p) ∧
    (∀ j, (x :: a) !! j = Some p → (i ≤ j)%nat)) as Hfin.
  { intros i p Hi Hall Hfirst. split.
    - intros j q Hq. by apply (proj1 (Forall_lookup _ _) Hall j q).
    - intros j Hj. destruct (decide (i ≤ j)%nat) as [|Hn]; [done|].
      exfalso. apply (Qclt_not_eq p p); [|done].
      apply (Hfirst j p); [lia | done]. }
  destruct (argmax_from_spec a x 0%nat 1%nat)
    as [[Hr Hall]|(k & x' & Hr & Hk & Hlt & Hall & Hfirst)].
  - exists 0%nat, x. rewrite Hr. split; [done|]. split; [done|].
    apply Hfin; [done | constructor; [apply Qcle_refl | done] | intros; lia].
  - exists (S k), x'. rewrite Hr. split; [done|]. split; [done|].
    apply Hfin; [done | constructor; [by apply Qclt_le_weak | done] |].
    intros [|k'] y Hk' Hy; simpl in Hy.
    + by injection Hy as <-.
    + apply (Hfirst k' y); [lia | done].
Qed.

Lemma sorted_lookup_le (l : list Z) (i j : nat) (s d : Z) :
  StronglySorted Z.lt l → l !! i = Some s → l !! j = Some d →
  (i ≤ j)%nat → (s ≤ d)%Z.
Proof.
  intros Hs. revert i j. induction Hs as [|x l Hs IH Hx]; intros i j Hi Hj Hij.
  { done. }
  destruct i as [|i], j as [|j]; simpl in *; try lia.
  - assert (s = d) by congruence. lia.
  - injection Hi as ->.
    assert (d ∈ l) as Hd by (apply list_elem_of_lookup; eauto).
    apply (proj1 (Forall_forall _ _) Hx) in Hd. lia.
  - apply (IH i j); [done | done | lia].
Qed.

Context (states : list Z) (trans_mat : list (list Qc)).
Hypothesis states_sorted : StronglySorted Z.lt states.
Hypothesis rows : length trans_mat = length states.
Hypothesis cols : Forall (λ row, length row = length states) trans_mat.

Lemma argmax_step (s : Z) :
  s ∈ states →
  ∃ i row j s',
    state_to_idx states !! s = Some i ∧ trans_mat !! i = Some row ∧
    np_argmax row = Ok j ∧ states !! j = Some s' ∧
    greedy_successor states trans_mat s s'.
Proof.
  intros Hs. apply state_to_idx_is_Some in Hs as [i Hi].
  pose proof (state_to_idx_lt states s i Hi) as Hlt.
  destruct (lookup_lt_is_Some_2 trans_mat i) as [row Hrow]; [lia|].
  pose proof (proj1 (Forall_lookup _ _) cols i row Hrow) as Hlen.
  destruct (np_argmax_spec row) as (j & p & Hj & Hp & Hmax & Hfirst).
  { intros ->. simpl in Hlen. lia. }
  destruct (lookup_lt_is_Some_2 states j) as [s' Hs'].
  { rewrite <-Hlen. by apply lookup_lt_Some in Hp. }
  exists i, row, j, s'. do 4 (split; [done|]).
  exists i, row, j, p. split; [by apply state_to_idx_Some|].
  do 4 (split; [done|]). intros j' d Hd Hj'.
  apply (sorted_lookup_le states j j'); [done..|]. by apply Hfirst.
Qed.

Lemma argmax_walk_spec (steps : nat) (s : Z) :
  s ∈ states →
  ∃ rest,
    argmax_walk (state_to_idx states) states trans_mat steps s = Ok rest ∧
    length rest = steps ∧
    ∀ k u v, (s :: rest) !! k = Some u → (s :: rest) !! S k = Some v →
             greedy_successor states trans_mat u v.
Proof.
  revert s. induction steps as [|steps IH]; intros s Hs.
  { exists []. split; [done|]. split; [done|]. intros [|k] u v _ Hv; done. }
  destruct (argmax_step s Hs) as (i & row & j & s' & Hi & Hrow & Hj & Hs' & Hg).
  destruct (IH s') as (rest & Hrest & Hlen & Hchain).
  { apply list_elem_of_lookup. eauto. }
  exists (s' :: rest). split; [|split].
  - cbn [argmax_walk]. rewrite Hi. run_result. rewrite Hrow. run_result.
    rewrite Hj. run_result. rewrite Hs'. run_result. rewrite Hrest. done.
  - simpl. by rewrite Hlen.
  - intros [|k] u v Hu Hv; simpl in Hu, Hv.
    + injection Hu as <-. by injection Hv as <-.
    + by apply (Hchain k).
Qed.
End Argmax.

(** C7.  [argmax_sequence] fails with [InvalidLengthError] when
    [length < 1] (the first check) and with [UnknownStateError] when the
    start state is not in the state space; otherwise, for a sorted state
    space and a matrix of matching shape, it returns a sequence of exactly
    [length] states that starts with [start_state] and in which every
    next state is the destination of maximum probability from the current
    one, the lowest state on ties.  On the rotation matrix of the tests,
    from state 1 with [length = 4], it returns [1, 2, 3, 1], in exact
    arithmetic and in binary64. *)
Theorem argmax_sequence_is_greedy :
  (∀ (start_state : Z) (states : list Z) (trans_mat : list (list Qc)) (len : Z),
     (len < 1 →
      argmax_sequence start_state states trans_mat len = Raise InvalidLengthError) ∧
     (1 ≤ len → start_state ∉ states →
      argmax_sequence start_state states trans_mat len = Raise UnknownStateError) ∧
     (1 ≤ len → start_state ∈ states →
      StronglySorted Z.lt states →
      length trans_mat = length states →
      Forall (λ row, length row = length states) trans_mat →
      ∃ seq,
        argmax_sequence start_state states trans_mat len = Ok seq ∧
        Z.of_nat (length seq) = len ∧
        seq !! 0%nat = Some start_state ∧
        ∀ k s s', seq !! k = Some s → seq !! S k = Some s' →
                  greedy_successor states trans_mat s s')) ∧
  argmax_sequence 1 scenario_states scenario_matrix 4 = Ok [1;2;3;1] ∧
  argmax_sequence 1 scenario_states scenario_matrix_binary64 4 = Ok [1;2;3;1].
Proof.
  split; [|split; vm_compute; reflexivity].
  intros start_state states trans_mat len. split; [|split].
  - intros Hlen. unfold argmax_sequence. by rewrite bool_decide_eq_true_2.
  - intros Hlen Hs. unfold argmax_sequence.
    rewrite bool_decide_eq_false_2 by lia.
    by rewrite (proj2 (state_to_idx_None states start_state) Hs).
  - intros Hlen Hs Hsorted Hrows Hcols.
    destruct (argmax_walk_spec states trans_mat Hsorted Hrows Hcols
                (Z.to_nat (len - 1)) start_state Hs)
      as (rest & Hrest & Hl & Hchain).
    exists (start_state :: rest). split; [|split; [|split; [done|done]]].
    + unfold argmax_sequence. rewrite bool_decide_eq_false_2 by lia.
      apply state_to_idx_is_Some in Hs as [i Hi]. rewrite Hi, Hrest. done.
    + simpl. lia.
Qed.

Lemma argmax_sequence_is_greedy_witness :
  ∃ seq,
    argmax_sequence 1 scenario_states scenario_matrix 4 = Ok seq ∧
    Z.of_nat (length seq) = 4 ∧
    seq !! 0%nat = Some 1 ∧
    ∀ k s s', seq !! k = Some s → seq !! S k = Some s' →
              greedy_successor scenario_states scenario_matrix s s'.
Proof.
  apply (proj1 argmax_sequence_is_greedy 1 scenario_states scenario_matrix 4).
  - lia.
  - left.
  - repeat constructor.
  - reflexivity.
  - repeat constructor.
Defined.

(** ** The stand-in generator obeys the contract *)

Lemma negative_check (l : list Qc) :
  existsb (λ x, bool_decide (x < 0)%Qc) l = false ↔ Forall (λ x, 0 ≤ x)%Qc l.
Proof.
  rewrite existsb_false_Forall. apply Forall_proper; [|done].
  intros x. rewrite bool_decide_eq_false. by rewrite Qcle_ngt.
Qed.

#[export] Instance stub_generator_laws : GeneratorLaws nat.
Proof.
  split.
  - intros n p g Hn Hlen Hnn Hsum. exists (g mod n)%nat, (S g).
    split; [|by apply Nat.mod_upper_bound; lia].
    cbn [rng_choice stub_generator]. unfold stub_choice.
    rewrite bool_decide_eq_false_2 by lia.
    rewrite bool_decide_eq_true_2 by done. cbn [negb].
    rewrite (proj2 (negative_check p) Hnn).
    by rewrite bool_decide_eq_true_2.
Qed.

(** ** Distributions in exact arithmetic *)

Lemma is_distribution_intro (row : list Qc) :
  Forall (λ x, 0 ≤ x)%Qc row → np_sum row = 1%Qc → is_distribution row.
Proof.
  intros Hnn Hsum. by split.
Qed.

(** ** [sample_sequence] *)

Section Predictive.
Local Open Scope Qc_scope.
Context {G L : Type} `{!Generator Qc G} `{!GeneratorLaws G} `{!LogDomain Qc L}.
Context (states : list Z) (start_probs : list Qc).
Hypothesis states_nonempty : states ≠ [].
Hypothesis start_length : length start_probs = length states.
Hypothesis start_nonneg : Forall (λ x, 0 ≤ x) start_probs.
Hypothesis start_sum : np_sum start_probs = 1.

Lemma states_positive : (0 < length states)%nat.
Proof. destruct states; [done | simpl; lia]. Qed.

Lemma sample_walk_spec (trans_mat : list (list Qc)) (steps i : nat) (g : G) :
  stochastic states trans_mat → (i < length states)%nat →
  ∃ rest g',
    sample_walk states trans_mat (length states) steps i g = Ok (rest, g') ∧
    length rest = steps ∧ Forall (λ s, s ∈ states) rest.
Proof.
  intros [Hrows Hall]. revert i g.
  induction steps as [|steps IH]; intros i g Hi.
  { exists [], g. split; [done|]. split; [done | constructor]. }
  destruct (lookup_lt_is_Some_2 trans_mat i) as [row Hrow]; [lia|].
  destruct (proj1 (Forall_lookup _ _) Hall i row Hrow) as (Hlen & Hnn & Hsum).
  destruct (choice_returns (length states) row g states_positive Hlen Hnn Hsum)
    as (j & g1 & Hchoice & Hj).
  destruct (lookup_lt_is_Some_2 states j Hj) as [s Hs].
  destruct (IH j g1 Hj) as (rest & g2 & Hrest & Hl & Hin).
  exists (s :: rest), g2. split; [|split].
  - cbn [sample_walk]. rewrite Hrow. run_result. rewrite Hchoice. run_result.
    rewrite Hs. run_result. rewrite Hrest. done.
  - simpl. by rewrite Hl.
  - constructor; [|done]. apply list_elem_of_lookup. eauto.
Qed.

Lemma has_shape_stochastic (trans_mat : list (list Qc)) :
  stochastic states trans_mat → has_shape (length states) trans_mat = true.
Proof.
  intros [Hrows Hall]. unfold has_shape.
  rewrite bool_decide_eq_true_2 by done. simpl.
  apply forallb_true_Forall. apply Forall_impl with (1 := Hall).
  intros row (Hlen & _). by apply bool_decide_eq_true.
Qed.

Lemma sample_sequence_spec (trans_mat : list (list Qc)) (len : Z)
    (rng : option G) (entropy : G) :
  (1 ≤ len)%Z → stochastic states trans_mat →
  ∃ seq g',
    sample_sequence states start_probs trans_mat len rng entropy = Ok (seq, g') ∧
    Z.of_nat (length seq) = len ∧ Forall (λ s, s ∈ states) seq.
Proof.
  intros Hlen Hm.
  destruct (choice_returns (length states) start_probs (default entropy rng)
              states_positive start_length start_nonneg start_sum)
    as (i & g1 & Hchoice & Hi).
  destruct (lookup_lt_is_Some_2 states i Hi) as [s Hs].
  destruct (sample_walk_spec trans_mat (Z.to_nat (len - 1)) i g1 Hm Hi)
    as (rest & g2 & Hrest & Hl & Hin).
  exists (s :: rest), g2. split; [|split].
  - unfold sample_sequence. rewrite bool_decide_eq_false_2 by lia.
    rewrite bool_decide_eq_true_2 by done.
    rewrite has_shape_stochastic by done. cbn [negb orb].
    rewrite Hchoice. run_result. rewrite Hs. run_result. rewrite Hrest. done.
  - simpl. lia.
  - constructor; [|done]. apply list_elem_of_lookup. eauto.
Qed.

End Predictive.

(** ** Reproducibility *)

(** Without a generator the result does depend on the entropy drawn. *)
Lemma default_generator_is_not_reproducible :
  sample_sequence scenario_states scenario_start scenario_matrix 3 None 0%nat
  ≠ sample_sequence scenario_states scenario_start scenario_matrix 3 None 1%nat.
Proof. vm_compute. discriminate. Qed.

(** * Further properties *)

(** ** The transition counts *)

Section TransitionCounts.
Implicit Types (seq : list Z) (counts : gmap Z (gmap Z N)) (s d a b : Z).

Lemma occurrences_nil {A} `{EqDecision A} (x : A) : occurrences x [] = 0%nat.
Proof. reflexivity. Qed.

Lemma occurrences_cons {A} `{EqDecision A} (x y : A) (l : list A) :
  occurrences x (y :: l)
  = ((if bool_decide (y = x) then 1 else 0) + occurrences x l)%nat.
Proof. unfold occurrences. by rewrite count_if_cons. Qed.

Lemma occurrences_app {A} `{EqDecision A} (x : A) (l1 l2 : list A) :
  occurrences x (l1 ++ l2) = (occurrences x l1 + occurrences x l2)%nat.
Proof.
  induction l1 as [|y l1 IH]; [done|].
  rewrite <-app_comm_cons, !occurrences_cons, IH. lia.
Qed.

Lemma counted_empty s d : counted ∅ s d = 0%N.
Proof. unfold counted. by rewrite lookup_empty. Qed.

Lemma counted_bump a b counts s d :
  counted (bump a b counts) s d
  = (counted counts s d + if bool_decide ((a, b) = (s, d)) then 1 else 0)%N.
Proof.
  unfold counted, bump. destruct (decide (a = s)) as [->|Hs].
  - rewrite lookup_insert_eq. simpl. destruct (decide (b = d)) as [->|Hd].
    + rewrite lookup_insert_eq, bool_decide_eq_true_2 by done. simpl.
      by destruct (counts !! s).
    + rewrite lookup_insert_ne by done.
      rewrite bool_decide_eq_false_2 by congruence.
      destruct (counts !! s); simpl; [lia|]. rewrite lookup_empty. simpl. lia.
  - rewrite lookup_insert_ne by done.
    rewrite bool_decide_eq_false_2 by congruence. lia.
Qed.

Lemma counted_count_pairs seq (acc : gmap Z (gmap Z N) * gset Z) s d :
  counted (count_pairs seq acc).1 s d
  = (counted acc.1 s d + N.of_nat (occurrences (s, d) (adjacent_pairs seq)))%N.
Proof.
  revert acc. induction seq as [|a seq IH]; intros acc.
  { simpl. rewrite occurrences_nil. lia. }
  destruct seq as [|b rest].
  { simpl. rewrite occurrences_nil. lia. }
  change (count_pairs (a :: b :: rest) acc)
    with (count_pairs (b :: rest)
            (bump a b acc.1, {[b]} ∪ ({[a]} ∪ acc.2))).
  change (adjacent_pairs (a :: b :: rest))
    with ((a, b) :: adjacent_pairs (b :: rest)).
  rewrite IH. cbn [fst]. rewrite counted_bump, occurrences_cons.
  destruct (bool_decide ((a, b) = (s, d))); lia.
Qed.

Lemma adjacent_pairs_short seq : (length seq < 2)%nat → adjacent_pairs seq = [].
Proof. destruct seq as [|a [|b rest]]; simpl; [done | done | lia]. Qed.

Lemma counted_fold (sequences : list (list Z))
    (acc : gmap Z (gmap Z N) * gset Z) s d :
  counted (fold_left count_sequence sequences acc).1 s d
  = (counted acc.1 s d + N.of_nat (occurrences (s, d) (batch_pairs sequences)))%N.
Proof.
  revert acc. induction sequences as [|seq sequences IH]; intros acc.
  { simpl. unfold batch_pairs. simpl. rewrite occurrences_nil. lia. }
  cbn [fold_left]. rewrite IH. unfold batch_pairs. cbn [map concat].
  rewrite occurrences_app. unfold count_sequence. case_bool_decide as Hlen.
  - rewrite adjacent_pairs_short by done. rewrite occurrences_nil. lia.
  - rewrite counted_count_pairs. lia.
Qed.
End TransitionCounts.

(** X1.  In the counts returned by [build_transition_counts], the count of
    the move from [s] to [d] is the number of times the pair [(s, d)]
    occurs as two adjacent elements of a sequence of the batch. *)
Theorem transition_counts_count_adjacent_pairs
    (sequences : list (list Z)) (counts : gmap Z (gmap Z N)) (states : list Z) :
  build_transition_counts sequences = Ok (counts, states) →
  ∀ s d, counted counts s d
         = N.of_nat (occurrences (s, d) (batch_pairs sequences)).
Proof.
  unfold build_transition_counts. destruct sequences as [|seq0 rest]; [done|].
  case_bool_decide; [done|]. intros [= <- _] s d.
  change (counted (fold_left count_sequence (seq0 :: rest) (∅, ∅)).1 s d
          = N.of_nat (occurrences (s, d) (batch_pairs (seq0 :: rest)))).
  rewrite counted_fold. cbn [fst]. rewrite counted_empty. lia.
Qed.

Lemma transition_counts_count_adjacent_pairs_witness :
  counted scenario_counts 2 3
  = N.of_nat (occurrences (2, 3) (batch_pairs [[1;2;3]; [2;3;1]; [1;2;1]])).
Proof.
  apply (transition_counts_count_adjacent_pairs
           [[1;2;3]; [2;3;1]; [1;2;1]] scenario_counts [1;2;3]).
  exact build_counts_scenario.
Defined.

Section CountsInvariant.
Implicit Types (seq : list Z) (counts : gmap Z (gmap Z N)) (s d a b : Z).
Implicit Types (pairs : list (Z * Z)).

(** The counts are the pairs of the batch, counted one by one. *)
Lemma count_pairs_bump_pairs seq (acc : gmap Z (gmap Z N) * gset Z) :
  (count_pairs seq acc).1 = fold_left bump_pair (adjacent_pairs seq) acc.1.
Proof.
  revert acc. induction seq as [|a seq IH]; intros acc; [done|].
  destruct seq as [|b rest]; [done|].
  change (count_pairs (a :: b :: rest) acc)
    with (count_pairs (b :: rest)
            (bump a b acc.1, {[b]} ∪ ({[a]} ∪ acc.2))).
  change (adjacent_pairs (a :: b :: rest))
    with ((a, b) :: adjacent_pairs (b :: rest)).
  by rewrite IH.
Qed.

Lemma fold_count_bump_pairs (sequences : list (list Z))
    (acc : gmap Z (gmap Z N) * gset Z) :
  (fold_left count_sequence sequences acc).1
  = fold_left bump_pair (batch_pairs sequences) acc.1.
Proof.
  revert acc. induction sequences as [|seq sequences IH]; intros acc; [done|].
  cbn [fold_left]. rewrite IH. unfold batch_pairs. cbn [map concat].
  rewrite fold_left_app. f_equal. unfold count_sequence.
  case_bool_decide as Hlen.
  - by rewrite adjacent_pairs_short.
  - apply count_pairs_bump_pairs.
Qed.

Lemma counter_total_bump (c : gmap Z N) b :
  counter_total (<[b := (default 0 (c !! b) + 1)%N]> c)
  = (counter_total c + 1)%N.
Proof.
  destruct (c !! b) as [k|] eqn:Hb; simpl.
  - rewrite <-(insert_delete_id c b k Hb) at 2.
    rewrite <-insert_delete_eq.
    rewrite !counter_total_insert by apply lookup_delete_eq. lia.
  - by rewrite counter_total_insert.
Qed.

Lemma outgoing_cons s (p : Z * Z) pairs :
  outgoing s (p :: pairs)
  = ((if bool_decide (p.1 = s) then 1 else 0) + outgoing s pairs)%nat.
Proof. unfold outgoing. by rewrite count_if_cons. Qed.

Lemma bump_pairs_total pairs counts s :
  counter_total (default ∅ (fold_left bump_pair pairs counts !! s))
  = (counter_total (default ∅ (counts !! s)) + N.of_nat (outgoing s pairs))%N.
Proof.
  revert counts. induction pairs as [|[a b] pairs IH]; intros counts.
  { simpl. unfold outgoing, count_if. simpl. lia. }
  cbn [fold_left]. rewrite IH, outgoing_cons. unfold bump_pair, bump. simpl.
  destruct (decide (a = s)) as [->|Hne].
  - rewrite lookup_insert_eq, bool_decide_eq_true_2 by done. simpl.
    rewrite counter_total_bump. lia.
  - rewrite lookup_insert_ne, bool_decide_eq_false_2 by done. lia.
Qed.

Lemma bump_pairs_keys pairs counts s :
  is_Some (fold_left bump_pair pairs counts !! s) ↔
  is_Some (counts !! s) ∨ ∃ d, (s, d) ∈ pairs.
Proof.
  revert counts. induction pairs as [|[a b] pairs IH]; intros counts.
  { simpl. split; [auto|]. intros [?|[d Hd]]; [done | by inversion Hd]. }
  cbn [fold_left]. rewrite IH. unfold bump_pair, bump. simpl. split.
  - intros [Hs|[d Hd]].
    + destruct (decide (a = s)) as [->|Hne].
      * right. exists b. left.
      * rewrite lookup_insert_ne in Hs by done. by left.
    + right. exists d. by right.
  - intros [Hs|[d Hd]].
    + left. destruct (decide (a = s)) as [->|Hne].
      * by rewrite lookup_insert_eq.
      * by rewrite lookup_insert_ne.
    + apply elem_of_cons in Hd as [[= <- <-]|Hd].
      * left. by rewrite lookup_insert_eq.
      * right. by exists d.
Qed.

Lemma bump_pairs_positive pairs counts :
  (∀ s c d k, counts !! s = Some c → c !! d = Some k → (0 < k)%N) →
  ∀ s c d k, fold_left bump_pair pairs counts !! s = Some c →
             c !! d = Some k → (0 < k)%N.
Proof.
  revert counts. induction pairs as [|[a b] pairs IH]; intros counts Hpos; [done|].
  cbn [fold_left]. apply IH. clear IH. intros s c d k Hs Hd.
  unfold bump_pair, bump in Hs. simpl in Hs.
  destruct (decide (a = s)) as [->|Hne].
  - rewrite lookup_insert_eq in Hs. injection Hs as <-.
    destruct (decide (b = d)) as [->|Hnd].
    + rewrite lookup_insert_eq in Hd. injection Hd as <-. lia.
    + rewrite lookup_insert_ne in Hd by done.
      destruct (counts !! s) as [c|] eqn:Hc; simpl in Hd.
      * by apply (Hpos s c d k).
      * by rewrite lookup_empty in Hd.
  - rewrite lookup_insert_ne in Hs by done. by apply (Hpos s c d k).
Qed.
End CountsInvariant.

(** X2.  The counts returned by [build_transition_counts] keep the
    invariant of the transition counts: the counts under a source [s] add
    up to the number of transitions that leave [s] in the batch; [s] is a
    key exactly when some transition leaves it; and no stored count is
    zero. *)
Theorem transition_counts_invariant
    (sequences : list (list Z)) (counts : gmap Z (gmap Z N)) (states : list Z) :
  build_transition_counts sequences = Ok (counts, states) →
  (∀ s, counter_total (default ∅ (counts !! s))
        = N.of_nat (outgoing s (batch_pairs sequences))) ∧
  (∀ s, is_Some (counts !! s) ↔ ∃ d, (s, d) ∈ batch_pairs sequences) ∧
  (∀ s c d k, counts !! s = Some c → c !! d = Some k → (0 < k)%N).
Proof.
  unfold build_transition_counts. destruct sequences as [|seq0 rest]; [done|].
  case_bool_decide; [done|]. intros [= <- _].
  change (fold_left count_sequence rest (count_sequence (∅, ∅) seq0))
    with (fold_left count_sequence (seq0 :: rest) (∅, ∅)).
  rewrite fold_count_bump_pairs. cbn [fst]. split; [|split].
  - intros s. rewrite bump_pairs_total, lookup_empty. simpl.
    unfold counter_total. rewrite map_fold_empty. lia.
  - intros s. rewrite bump_pairs_keys, lookup_empty. split.
    + intros [[? ?]|?]; done.
    + auto.
  - apply bump_pairs_positive. intros s c d k Hs. by rewrite lookup_empty in Hs.
Qed.

Lemma transition_counts_invariant_witness :
  (∀ s, counter_total (default ∅ (scenario_counts !! s))
        = N.of_nat (outgoing s (batch_pairs [[1;2;3]; [2;3;1]; [1;2;1]]))) ∧
  (∀ s, is_Some (scenario_counts !! s) ↔
        ∃ d, (s, d) ∈ batch_pairs [[1;2;3]; [2;3;1]; [1;2;1]]) ∧
  (∀ s c d k, scenario_counts !! s = Some c → c !! d = Some k → (0 < k)%N).
Proof.
  apply (transition_counts_invariant
           [[1;2;3]; [2;3;1]; [1;2;1]] scenario_counts [1;2;3]).
  exact build_counts_scenario.
Defined.

(** X5.  With an empty state list and [alpha > 0] the two estimators part
    ways: [transition_matrix_from_counts] returns the empty matrix,
    whatever the counts, while [empirical_start_distribution] fails on its
    own assertion, the empty vector summing to 0. *)
Theorem estimators_on_an_empty_state_list
    (counts : gmap Z (gmap Z N)) (sequences : list (list Z)) (alpha : Qc) :
  (0 < alpha)%Qc → sequences ≠ [] →
  transition_matrix_from_counts counts [] alpha = Ok [] ∧
  empirical_start_distribution sequences [] alpha
  = Raise (AssertionError "Start probabilities do not sum to 1").
Proof.
  intros Halpha Hseq. split.
  - unfold transition_matrix_from_counts.
    by rewrite alpha_check_passes.
  - unfold empirical_start_distribution. rewrite alpha_check_passes by done.
    destruct sequences as [|seq0 rest]; [done|].
    assert (fold_left (count_start (state_to_idx [])) (seq0 :: rest)
              (replicate (length (@nil Z)) (f_zero : Qc)) = []) as ->.
    { generalize (seq0 :: rest). intros l. induction l as [|seq l IH]; [done|].
      cbn [fold_left]. destruct seq; apply IH. }
    by vm_compute.
Qed.

Lemma estimators_on_an_empty_state_list_witness :
  transition_matrix_from_counts scenario_counts [] (1 : Qc) = Ok [] ∧
  empirical_start_distribution start_scenario [] (1 : Qc)
  = Raise (AssertionError "Start probabilities do not sum to 1").
Proof.
  apply (estimators_on_an_empty_state_list scenario_counts start_scenario 1%Qc);
    [reflexivity | done].
Defined.

(** ** The greedy walk stays in the state space and extends itself *)

Section ArgmaxClosure.
Context (states : list Z) (trans_mat : list (list Qc)).
Hypothesis rows : length trans_mat = length states.
Hypothesis cols : Forall (λ row, length row = length states) trans_mat.

Lemma argmax_walk_members (steps : nat) (s : Z) :
  s ∈ states →
  ∃ rest,
    argmax_walk (state_to_idx states) states trans_mat steps s = Ok rest ∧
    length rest = steps ∧ Forall (λ x, x ∈ states) rest.
Proof.
  revert s. induction steps as [|steps IH]; intros s Hs.
  { exists []. split; [done|]. split; [done | constructor]. }
  apply state_to_idx_is_Some in Hs as [i Hi].
  pose proof (state_to_idx_lt states s i Hi) as Hlt.
  destruct (lookup_lt_is_Some_2 trans_mat i) as [row Hrow]; [lia|].
  pose proof (proj1 (Forall_lookup _ _) cols i row Hrow) as Hlen.
  destruct (np_argmax_spec row) as (j & p & Hj & Hp & _).
  { intros ->. simpl in Hlen. lia. }
  destruct (lookup_lt_is_Some_2 states j) as [s' Hs'].
  { rewrite <-Hlen. by apply lookup_lt_Some in Hp. }
  assert (s' ∈ states) as Hin by (apply list_elem_of_lookup; eauto).
  destruct (IH s' Hin) as (rest & Hrest & Hl & Hall).
  exists (s' :: rest). split; [|split].
  - cbn [argmax_walk]. rewrite Hi. run_result. rewrite Hrow. run_result.
    rewrite Hj. run_result. rewrite Hs'. run_result. rewrite Hrest. done.
  - simpl. by rewrite Hl.
  - by constructor.
Qed.
End ArgmaxClosure.

(** X6.  For a start state of the state list, [length >= 1] and a matrix
    of matching shape, [argmax_sequence] returns exactly [length] states,
    all of them states of the list, whether or not the list is sorted or
    free of duplicates. *)
Theorem argmax_sequence_stays_in_state_space
    (start_state : Z) (states : list Z) (trans_mat : list (list Qc)) (len : Z) :
  1 ≤ len → start_state ∈ states →
  length trans_mat = length states →
  Forall (λ row, length row = length states) trans_mat →
  ∃ seq,
    argmax_sequence start_state states trans_mat len = Ok seq ∧
    Z.of_nat (length seq) = len ∧ Forall (λ s, s ∈ states) seq.
Proof.
  intros Hlen Hs Hrows Hcols.
  destruct (argmax_walk_members states trans_mat Hrows Hcols
              (Z.to_nat (len - 1)) start_state Hs) as (rest & Hrest & Hl & Hall).
  exists (start_state :: rest). split; [|split].
  - unfold argmax_sequence. rewrite bool_decide_eq_false_2 by lia.
    apply state_to_idx_is_Some in Hs as [i Hi]. rewrite Hi, Hrest. done.
  - simpl. lia.
  - by constructor.
Qed.

Lemma argmax_sequence_stays_in_state_space_witness :
  ∃ seq,
    argmax_sequence 2 [3; 1; 2] scenario_matrix 5
    = Ok seq ∧
    Z.of_nat (length seq) = 5 ∧ Forall (λ s, s ∈ [3; 1; 2]) seq.
Proof.
  apply (argmax_sequence_stays_in_state_space
           2 [3; 1; 2] scenario_matrix 5).
  - lia.
  - do 2 right. left.
  - reflexivity.
  - repeat constructor.
Defined.

Ltac run_result_in H :=
  cbn [mbind result_bind mret result_ret lookup_or] in H.

Section ArgmaxPrefix.
Context {F : Type} `{!Float64 F}.
Context (states : list Z) (trans_mat : list (list F)).

Lemma argmax_walk_step (k : nat) (s : Z) :
  argmax_walk (state_to_idx states) states trans_mat (S k) s
  = (current_idx ← lookup_or KeyError (state_to_idx states !! s);
     row ← lookup_or IndexError (trans_mat !! current_idx);
     next_idx ← np_argmax row;
     next_state ← lookup_or IndexError (states !! next_idx);
     rest ← argmax_walk (state_to_idx states) states trans_mat k next_state;
     Ok (next_state :: rest)).
Proof. reflexivity. Qed.

(** One more step of the walk appends one state. *)
Lemma argmax_walk_extends (k : nat) (s : Z) (longer : list Z) :
  argmax_walk (state_to_idx states) states trans_mat (S k) s = Ok longer →
  ∃ rest x,
    argmax_walk (state_to_idx states) states trans_mat k s = Ok rest ∧
    longer = rest ++ [x].
Proof.
  revert s longer. induction k as [|k IH]; intros s longer Hwalk.
  { exists []. rewrite argmax_walk_step in Hwalk.
    destruct (state_to_idx states !! s) as [i|]; [|done].
    run_result_in Hwalk.
    destruct (trans_mat !! i) as [row|]; [|done]. run_result_in Hwalk.
    destruct (np_argmax row) as [j|]; [|done]. run_result_in Hwalk.
    destruct (states !! j) as [s'|]; [|done]. run_result_in Hwalk.
    cbn [argmax_walk] in Hwalk. run_result_in Hwalk.
    injection Hwalk as <-. by exists s'. }
  rewrite argmax_walk_step in Hwalk. rewrite argmax_walk_step.
  destruct (state_to_idx states !! s) as [i|]; [|done].
  run_result_in Hwalk. run_result.
  destruct (trans_mat !! i) as [row|]; [|done]. run_result_in Hwalk. run_result.
  destruct (np_argmax row) as [j|]; [|done]. run_result_in Hwalk. run_result.
  destruct (states !! j) as [s'|]; [|done]. run_result_in Hwalk. run_result.
  destruct (argmax_walk _ states trans_mat (S k) s') as [rest'|] eqn:Hrest;
    [|done].
  run_result_in Hwalk. injection Hwalk as <-.
  destruct (IH s' rest' Hrest) as (rest & x & Hk & ->).
  exists (s' :: rest), x. rewrite Hk. done.
Qed.
End ArgmaxPrefix.

(** X7.  [argmax_sequence] extends itself: whenever it returns for
    [length + 1], it returns for [length] too, and the longer sequence is
    the shorter one followed by one more state.  This holds for every
    interpretation of the float operations. *)
Theorem argmax_sequence_extends_shorter_walk {F : Type} `{!Float64 F}
    (start_state : Z) (states : list Z) (trans_mat : list (list F))
    (len : Z) (longer : list Z) :
  1 ≤ len →
  argmax_sequence start_state states trans_mat (len + 1) = Ok longer →
  ∃ seq x,
    argmax_sequence start_state states trans_mat len = Ok seq ∧
    longer = seq ++ [x].
Proof.
  intros Hlen. unfold argmax_sequence.
  rewrite !bool_decide_eq_false_2 by lia.
  destruct (state_to_idx states !! start_state) as [i|]; [|done].
  replace (Z.to_nat (len + 1 - 1)) with (S (Z.to_nat (len - 1))) by lia.
  destruct (argmax_walk _ states trans_mat (S _) start_state)
    as [rest'|] eqn:Hwalk; [|done].
  run_result. intros [= <-].
  destruct (argmax_walk_extends states trans_mat _ _ _ Hwalk)
    as (rest & x & Hk & ->).
  exists (start_state :: rest), x. rewrite Hk. done.
Qed.

Lemma argmax_sequence_extends_shorter_walk_witness :
  ∃ seq x,
    argmax_sequence 1 scenario_states scenario_matrix_binary64 3 = Ok seq ∧
    [1; 2; 3; 1] = seq ++ [x].
Proof.
  apply (argmax_sequence_extends_shorter_walk
           1 scenario_states scenario_matrix_binary64 3 [1; 2; 3; 1]).
  - lia.
  - vm_compute. reflexivity.
Defined.

(** ** The contract of [sample_sequence] *)

(** X8.  [sample_sequence] rejects [length < 1] with [InvalidLengthError]
    and then a start vector or matrix whose shape disagrees with the state
    list with [ShapeMismatchError]; on a non-empty state list with a start
    distribution and a stochastic matrix over it, it returns exactly
    [length] states, all of them states of the list. *)
Theorem sample_sequence_contract {G : Type}
    `{!Generator Qc G} `{!GeneratorLaws G}
    (states : list Z) (start_probs : list Qc) (trans_mat : list (list Qc))
    (len : Z) (rng : option G) (entropy : G) :
  (len < 1 →
   sample_sequence states start_probs trans_mat len rng entropy
   = Raise InvalidLengthError) ∧
  (1 ≤ len →
   length start_probs ≠ length states ∨
   has_shape (length states) trans_mat = false →
   sample_sequence states start_probs trans_mat len rng entropy
   = Raise ShapeMismatchError) ∧
  (1 ≤ len → states ≠ [] →
   length start_probs = length states →
   Forall (λ x, 0 ≤ x)%Qc start_probs → np_sum start_probs = 1%Qc →
   stochastic states trans_mat →
   ∃ seq g',
     sample_sequence states start_probs trans_mat len rng entropy
     = Ok (seq, g') ∧
     Z.of_nat (length seq) = len ∧ Forall (λ s, s ∈ states) seq).
Proof.
  split; [|split].
  - intros Hlen. unfold sample_sequence. by rewrite bool_decide_eq_true_2.
  - intros Hlen Hshape. unfold sample_sequence.
    rewrite bool_decide_eq_false_2 by lia.
    destruct Hshape as [Hne|Hne].
    + by rewrite bool_decide_eq_false_2.
    + rewrite Hne. by rewrite orb_true_r.
  - intros Hlen Hstates Hsl Hnn Hsum Hm.
    by apply sample_sequence_spec.
Qed.

Lemma scenario_matrix_stochastic : stochastic scenario_states scenario_matrix.
Proof.
  split; [reflexivity|].
  repeat (apply Forall_cons; split;
          [split; [reflexivity|];
           split; [repeat constructor; by vm_compute | by apply Qc_is_canon]|]).
  constructor.
Qed.

Lemma sample_sequence_contract_witness :
  ∃ seq g',
    sample_sequence scenario_states scenario_start scenario_matrix 5
      (Some 3%nat) 0%nat = Ok (seq, g') ∧
    Z.of_nat (length seq) = 5 ∧ Forall (λ s, s ∈ scenario_states) seq.
Proof.
  apply (proj2 (proj2 (sample_sequence_contract scenario_states scenario_start
                         scenario_matrix 5 (Some 3%nat) 0%nat))).
  - lia.
  - done.
  - reflexivity.
  - repeat constructor; by vm_compute.
  - by apply Qc_is_canon.
  - apply scenario_matrix_stochastic.
Defined.

(** ** Scoring is incremental *)

Section LogProbChain.
Context {F L : Type} `{!LogDomain F L}.
Context (states : list Z) (start_probs : list F) (trans_mat : list (list F)).

(** The loop over a sequence with one more state does the loop over the
    sequence and then scores the last move. *)
Lemma logprob_transitions_snoc (seq : list Z) (a s : Z) (acc : L) :
  logprob_transitions (state_to_idx states) trans_mat ((seq ++ [a]) ++ [s]) acc
  = (lp ← logprob_transitions (state_to_idx states) trans_mat (seq ++ [a]) acc;
     current_idx ← lookup_or KeyError (state_to_idx states !! a);
     next_idx ← lookup_or KeyError (state_to_idx states !! s);
     row ← lookup_or IndexError (trans_mat !! current_idx);
     p ← lookup_or IndexError (row !! next_idx);
     Ok (l_add lp (l_log p))).
Proof.
  revert acc. induction seq as [|b seq IH]; intros acc; [reflexivity|].
  rewrite <-!app_comm_cons.
  destruct (seq ++ [a]) as [|c rest] eqn:Heq.
  { by destruct seq. }
  rewrite <-app_comm_cons.
  rewrite !(logprob_transitions_step states trans_mat).
  destruct (state_to_idx states !! b) as [ib|]; [|done]. run_result.
  destruct (state_to_idx states !! c) as [ic|]; [|done]. run_result.
  destruct (trans_mat !! ib) as [row|]; [|done]. run_result.
  destruct (row !! ic) as [p|]; [|done]. run_result.
  rewrite app_comm_cons. apply IH.
Qed.
End LogProbChain.

(** X9.  Scoring is incremental: for a sequence of known states that ends
    in [a], the log-probability of the sequence extended by a state [s] is
    the log-probability of the sequence to which the log of the transition
    probability from [a] to [s] is added.  This holds for every
    interpretation of [np.log] and of the addition. *)
Theorem logprob_of_extended_sequence {F L : Type} `{!LogDomain F L}
    (states : list Z) (start_probs : list F) (trans_mat : list (list F))
    (seq : list Z) (a s : Z) (lp : L) (p : F) :
  Forall (λ x, x ∈ states) seq →
  last seq = Some a →
  logprob_of_sequence seq states start_probs trans_mat = Ok lp →
  transition_prob states trans_mat a s = Some p →
  logprob_of_sequence (seq ++ [s]) states start_probs trans_mat
  = Ok (l_add lp (l_log p)).
Proof.
  intros Hknown Hlast Hlp Hp.
  apply last_Some in Hlast as [seq0 ->].
  unfold transition_prob in Hp.
  destruct (state_to_idx states !! a) as [ia|] eqn:Hia; [|done].
  destruct (state_to_idx states !! s) as [i_s|] eqn:His; [|done].
  simpl in Hp. destruct (trans_mat !! ia) as [row|] eqn:Hrow; [|done].
  simpl in Hp.
  assert (Forall (λ x, x ∈ states) ((seq0 ++ [a]) ++ [s])) as Hknown'.
  { apply Forall_app. split; [done|]. constructor; [|constructor].
    apply state_to_idx_is_Some. by exists i_s. }
  destruct (seq0 ++ [a]) as [|first_state rest] eqn:Heq.
  { by destruct seq0. }
  rewrite <-app_comm_cons. unfold logprob_of_sequence in Hlp |- *.
  rewrite app_comm_cons.
  rewrite (proj2 (known_states_check states _) Hknown').
  rewrite (proj2 (known_states_check states _) Hknown) in Hlp.
  cbn [negb] in Hlp |- *.
  destruct (state_to_idx states !! first_state) as [i0|]; [|done].
  run_result_in Hlp. run_result.
  destruct (start_probs !! i0) as [p0|]; [|done].
  run_result_in Hlp. run_result.
  rewrite <-Heq in Hlp |- *.
  rewrite logprob_transitions_snoc, Hlp. run_result.
  rewrite Hia, His. run_result. rewrite Hrow. run_result. by rewrite Hp.
Qed.

Lemma logprob_of_extended_sequence_witness :
  logprob_of_sequence (L := log_expr Qc) ([1; 2] ++ [3])
    scenario_states scenario_start scenario_matrix
  = Ok (l_add (LAdd (LLog (Q2Qc (1 # 2))) (LLog (Q2Qc (8 # 10))))
          (l_log (Q2Qc (8 # 10)))).
Proof.
  apply (logprob_of_extended_sequence (L := log_expr Qc)
           scenario_states scenario_start scenario_matrix [1; 2] 2 3).
  - repeat constructor; apply state_to_idx_is_Some; vm_compute; eauto.
  - reflexivity.
  - reflexivity.
  - reflexivity.
Defined.

(** ** The posterior concentration vector *)

Section Concentration.
Context {F : Type} `{!Float64 F}.
Context (n : nat) (idx : gmap Z nat) (alpha : F).
Hypothesis idx_lt : ∀ d j, idx !! d = Some j → (j < n)%nat.
Hypothesis idx_inj : ∀ d1 d2 j, idx !! d1 = Some j → idx !! d2 = Some j → d1 = d2.

(** The vector after the loop over the items of [m]. *)
Lemma add_counts_spec (m : gmap Z N) :
  let vec := map_fold (add_count idx) (replicate n alpha) m in
  length vec = n ∧
  (∀ d k j, m !! d = Some k → idx !! d = Some j →
            vec !! j = Some (f_add alpha (f_of_N k))) ∧
  (∀ j, (j < n)%nat → (∀ d, idx !! d = Some j → m !! d = None) →
        vec !! j = Some alpha).
Proof.
  cbv zeta.
  apply (map_fold_weak_ind (λ vec m,
    length vec = n ∧
    (∀ d k j, m !! d = Some k → idx !! d = Some j →
              vec !! j = Some (f_add alpha (f_of_N k))) ∧
    (∀ j, (j < n)%nat → (∀ d, idx !! d = Some j → m !! d = None) →
          vec !! j = Some alpha))).
  - split; [by rewrite length_replicate|].
    split; [intros d k j Hd; by rewrite lookup_empty in Hd|].
    intros j Hj _. by apply lookup_replicate_2.
  - clear m. intros d0 k0 m vec Hfresh (Hlen & Hcounted & Hfree).
    unfold add_count at 1 2 3. destruct (idx !! d0) as [j0|] eqn:Hd0.
    + assert (j0 < n)%nat as Hj0 by eauto.
      assert (vec !! j0 = Some alpha) as Hvec0.
      { apply Hfree; [done|]. intros d Hd.
        by rewrite (idx_inj d d0 j0 Hd Hd0). }
      split; [by rewrite length_alter|]. split.
      * intros d k j Hd Hj. destruct (decide (d0 = d)) as [->|Hne].
        -- rewrite lookup_insert_eq in Hd. injection Hd as <-.
           assert (j = j0) as -> by congruence.
           by rewrite list_lookup_alter_eq, Hvec0.
        -- rewrite lookup_insert_ne in Hd by done.
           assert (j0 ≠ j) by (intros ->; eauto).
           rewrite list_lookup_alter_ne by done. eauto.
      * intros j Hj Hnone. assert (j0 ≠ j) as Hne.
        { intros ->. specialize (Hnone d0 Hd0).
          by rewrite lookup_insert_eq in Hnone. }
        rewrite list_lookup_alter_ne by done. apply Hfree; [done|].
        intros d Hd. specialize (Hnone d Hd).
        rewrite lookup_insert_ne in Hnone; [done|]. intros ->. congruence.
    + split; [done|]. split.
      * intros d k j Hd Hj. rewrite lookup_insert_ne in Hd; [eauto|].
        intros ->. congruence.
      * intros j Hj Hnone. apply Hfree; [done|]. intros d Hd.
        specialize (Hnone d Hd). rewrite lookup_insert_ne in Hnone; [done|].
        intros ->. congruence.
Qed.
End Concentration.

(** X10.  For a duplicate-free state list, the concentration vector that
    [sample_transition_matrix_posterior] builds for a state with observed
    transitions holds, in the column of each destination, the prior
    [alpha] plus the observed count, and [alpha] alone where nothing was
    observed: the conjugate update of the Dirichlet prior.  This holds for
    every interpretation of the float operations. *)
Theorem posterior_concentration_is_prior_plus_count {F : Type} `{!Float64 F}
    (states : list Z) (alpha : F) (state_counts : gmap Z N) (j : nat) (d : Z) :
  NoDup states → states !! j = Some d →
  posterior_concentration (length states) (state_to_idx states) alpha
    state_counts !! j
  = Some (match state_counts !! d with
          | Some count => f_add alpha (f_of_N count)
          | None => alpha
          end).
Proof.
  intros Hnd Hj.
  destruct (add_counts_spec (length states) (state_to_idx states) alpha
              (λ d j, state_to_idx_lt states d j)
              (λ d1 d2 j H1 H2, state_to_idx_inj states d1 d2 j H1 H2)
              state_counts) as (_ & Hcounted & Hfree).
  pose proof (state_to_idx_NoDup states d j Hnd Hj) as Hidx.
  unfold posterior_concentration.
  destruct (state_counts !! d) as [k|] eqn:Hd.
  - by apply (Hcounted d k j).
  - apply Hfree; [by apply lookup_lt_Some in Hj|].
    intros d' Hd'. by rewrite (state_to_idx_inj states d' d j Hd' Hidx).
Qed.

Lemma posterior_concentration_is_prior_plus_count_witness :
  posterior_concentration (length scenario_states)
    (state_to_idx scenario_states) 1%float {[ 3 := 2%N; 1 := 1%N ]} !! 2%nat
  = Some (match ({[ 3 := 2%N; 1 := 1%N ]} : gmap Z N) !! 3 with
          | Some count => f_add 1%float (f_of_N count)
          | None => 1%float
          end).
Proof.
  apply (posterior_concentration_is_prior_plus_count
           scenario_states 1%float {[ 3 := 2%N; 1 := 1%N ]} 2%nat 3).
  - repeat (apply NoDup_cons_2; [rewrite ?elem_of_cons, elem_of_nil; lia|]).
    apply NoDup_nil_2.
  - reflexivity.
Defined.

(** ** Reading the input file *)

Section ParsingProps.
Context `{!TextOps} (valid_min valid_max : Z).

Lemma keep_tokens_spec (tokens : list string) (seq : list Z) :
  fold_left (keep_token valid_min valid_max) tokens seq
  = seq ++ List.filter (in_range valid_min valid_max) (omap py_int tokens).
Proof.
  revert seq. induction tokens as [|token tokens IH]; intros seq.
  - simpl. by rewrite app_nil_r.
  - cbn [fold_left]. rewrite IH. unfold keep_token.
    change (omap py_int (token :: tokens))
      with (match py_int token with
            | Some value => value :: omap py_int tokens
            | None => omap py_int tokens
            end).
    destruct (py_int token) as [value|]; [|done].
    cbn [List.filter]. destruct (in_range valid_min valid_max value); [|done].
    by rewrite <-app_assoc.
Qed.

Lemma parsed_lines_cons (line : string) (lines : list string) :
  parsed_lines valid_min valid_max (line :: lines)
  = if is_blank line then parsed_lines valid_min valid_max lines
    else if bool_decide (2 ≤ length (line_values valid_min valid_max line))%nat
         then line_values valid_min valid_max line
              :: parsed_lines valid_min valid_max lines
         else parsed_lines valid_min valid_max lines.
Proof.
  unfold parsed_lines. cbn [List.filter].
  destruct (is_blank line); [done|]. cbn [negb map List.filter].
  by destruct (bool_decide (2 ≤ length (line_values valid_min valid_max line))%nat).
Qed.

Lemma parse_lines_spec (lines : list string) (sequences : list (list Z)) :
  fold_left (parse_line valid_min valid_max) lines sequences
  = sequences ++ parsed_lines valid_min valid_max lines.
Proof.
  revert sequences. induction lines as [|line lines IH]; intros sequences.
  - simpl. by rewrite app_nil_r.
  - cbn [fold_left]. rewrite IH, parsed_lines_cons. unfold parse_line.
    rewrite keep_tokens_spec. cbn [app].
    fold (line_values valid_min valid_max line). fold (is_blank line).
    destruct (is_blank line); [done|].
    destruct (bool_decide (2 ≤ length (line_values valid_min valid_max line))%nat);
      [|done].
    by rewrite <-app_assoc.
Qed.

Lemma parsed_lines_spec (lines : list string) :
  Forall (λ seq, (2 ≤ length seq)%nat ∧
                 Forall (λ value, valid_min ≤ value ≤ valid_max) seq)
    (parsed_lines valid_min valid_max lines).
Proof.
  apply Forall_forall. intros seq Hseq. unfold parsed_lines in Hseq.
  apply list_elem_of_In, filter_In in Hseq as [Hin Hlen].
  apply bool_decide_eq_true in Hlen. split; [done|].
  apply in_map_iff in Hin as (line & <- & _).
  apply Forall_forall. intros value Hvalue. unfold line_values in Hvalue.
  apply list_elem_of_In, filter_In in Hvalue as [_ Hrange].
  unfold in_range in Hrange. apply andb_true_iff in Hrange as [Hlo Hhi].
  apply bool_decide_eq_true in Hlo, Hhi. done.
Qed.

Lemma parse_text_file (lines : list string) :
  0 ≤ valid_min → valid_min ≤ valid_max → lines ≠ [] →
  parse_sequences_from_file (TextFile lines) valid_min valid_max
  = match parsed_lines valid_min valid_max lines with
    | [] => Failed (PythonError
                      (ValueError "No valid sequences found in input file"))
    | sequences => Returned sequences
    end.
Proof.
  intros Hmin Hle Hlines. unfold parse_sequences_from_file.
  rewrite bool_decide_eq_false_2 by lia.
  rewrite bool_decide_eq_false_2 by lia.
  destruct lines as [|line lines]; [done|].
  rewrite parse_lines_spec. cbn [app].
  by destruct (parsed_lines valid_min valid_max (line :: lines)).
Qed.

Lemma parse_returned (file : input_file) (sequences : list (list Z)) :
  parse_sequences_from_file file valid_min valid_max = Returned sequences →
  0 ≤ valid_min ≤ valid_max ∧
  Forall (λ seq, (2 ≤ length seq)%nat ∧
                 Forall (λ value, valid_min ≤ value ≤ valid_max) seq)
    sequences ∧
  (sequences = [] ↔ file = TextFile []).
Proof.
  intros Hret.
  assert (0 ≤ valid_min ≤ valid_max) as Hrange.
  { unfold parse_sequences_from_file in Hret.
    repeat case_bool_decide; try done. lia. }
  split; [done|].
  destruct file as [| |lines];
    [unfold parse_sequences_from_file in Hret;
     repeat case_bool_decide; done..|].
  destruct (decide (lines = [])) as [->|Hlines].
  - unfold parse_sequences_from_file in Hret.
    repeat case_bool_decide; try done. by injection Hret as <-.
  - rewrite parse_text_file in Hret by (done || lia).
    pose proof (parsed_lines_spec lines) as Hspec.
    destruct (parsed_lines valid_min valid_max lines) as [|seq rest]; [done|].
    injection Hret as <-. split; [done|].
    split; [done | by intros [= ->]].
Qed.

End ParsingProps.

(** X13.  On a text file that is not empty, with [0 <= valid_min <=
    valid_max], [parse_sequences_from_file] reads line by line: a line
    that is not blank contributes, in their order, the tokens that [int]
    accepts and that lie in the range, the other tokens being dropped; the
    lines with two values or more are returned in the order of the file,
    and [ValueError] is raised when there is none. *)
Theorem parse_sequences_from_file_reads_line_by_line
    `{!TextOps} (lines : list string) (valid_min valid_max : Z) :
  0 ≤ valid_min → valid_min ≤ valid_max → lines ≠ [] →
  parse_sequences_from_file (TextFile lines) valid_min valid_max
  = match parsed_lines valid_min valid_max lines with
    | [] => Failed (PythonError
                      (ValueError "No valid sequences found in input file"))
    | sequences => Returned sequences
    end.
Proof. apply parse_text_file. Qed.

Lemma parse_sequences_from_file_reads_line_by_line_witness :
  parse_sequences_from_file
    (TextFile ["1,2,3,40,5"; "6 7 8 9 10"; "   "; "abc, 7"; "0,12,13,14,15"]%string)
    1 35
  = match parsed_lines 1 35
            ["1,2,3,40,5"; "6 7 8 9 10"; "   "; "abc, 7"; "0,12,13,14,15"]%string
    with
    | [] => Failed (PythonError
                      (ValueError "No valid sequences found in input file"))
    | sequences => Returned sequences
    end.
Proof.
  apply (parse_sequences_from_file_reads_line_by_line
           ["1,2,3,40,5"; "6 7 8 9 10"; "   "; "abc, 7"; "0,12,13,14,15"]%string
           1 35); [lia | lia | done].
Defined.

(** X14.  What [parse_sequences_from_file] returns: the range it was given
    satisfies [0 <= valid_min <= valid_max], every sequence has two values
    or more, every value lies in the range, and the list is empty for the
    file of size 0 only. *)
Theorem parse_sequences_from_file_postcondition
    `{!TextOps} (file : input_file) (valid_min valid_max : Z)
    (sequences : list (list Z)) :
  parse_sequences_from_file file valid_min valid_max = Returned sequences →
  0 ≤ valid_min ≤ valid_max ∧
  Forall (λ seq, (2 ≤ length seq)%nat ∧
                 Forall (λ value, valid_min ≤ value ≤ valid_max) seq)
    sequences ∧
  (sequences = [] ↔ file = TextFile []).
Proof. apply parse_returned. Qed.

Lemma parse_sequences_from_file_postcondition_witness :
  0 ≤ 1 ≤ 35 ∧
  Forall (λ seq, (2 ≤ length seq)%nat ∧
                 Forall (λ value, 1 ≤ value ≤ 35) seq)
    parse_scenario_sequences ∧
  (parse_scenario_sequences = [] ↔ parse_scenario = TextFile []).
Proof.
  apply (parse_sequences_from_file_postcondition parse_scenario 1 35).
  reflexivity.
Defined.

(** ** A predicate that holds throughout a list *)

Lemma count_if_all {A} (f : A → bool) (l : list A) :
  Forall (λ x, f x = true) l → count_if f l = length l.
Proof.
  induction 1 as [|x l Hx _ IH]; [done|].
  rewrite count_if_cons, Hx, IH. done.
Qed.

(** * The estimators, for every float type *)

(** ** What a returned matrix holds *)

Section EstimatorOutcome.
Context {F : Type} `{!Float64 F}.

Lemma passes_checks_rows (matrix : list (list F)) :
  forallb (forallb (f_leb f_zero)) matrix = true →
  np_allclose (map np_sum matrix) f_one = true →
  Forall passes_checks matrix.
Proof.
  intros Hnn Hsum. apply forallb_true_Forall in Hnn.
  unfold np_allclose in Hsum. apply forallb_true_Forall in Hsum.
  change (map ?f ?l) with (fmap f l) in Hsum.
  apply Forall_fmap in Hsum. apply Forall_forall. intros row Hrow. split.
  - apply forallb_true_Forall. by apply (proj1 (Forall_forall _ _) Hnn).
  - by apply (proj1 (Forall_forall _ _) Hsum).
Qed.

Lemma rows_pass_checks (matrix : list (list F)) :
  Forall passes_checks matrix →
  forallb (forallb (f_leb f_zero)) matrix = true ∧
  np_allclose (map np_sum matrix) f_one = true.
Proof.
  intros Hrows. split.
  - apply forallb_true_Forall, Forall_impl with (1 := Hrows).
    intros row [Hnn _]. by apply forallb_true_Forall.
  - unfold np_allclose. apply forallb_true_Forall.
    change (map ?f ?l) with (fmap f l). apply Forall_fmap.
    apply Forall_impl with (1 := Hrows). by intros row [_ ?].
Qed.

(** The function returns the matrix its loop has built, and only if the
    rows of that matrix pass both assertions. *)
Lemma transition_matrix_from_counts_Ok (counts : gmap Z (gmap Z N))
    (states : list Z) (alpha : F) (matrix : list (list F)) :
  transition_matrix_from_counts counts states alpha = Ok matrix →
  f_leb alpha f_zero = false ∧
  matrix = estimated_matrix counts states alpha ∧
  Forall passes_checks matrix.
Proof.
  unfold transition_matrix_from_counts.
  destruct (f_leb alpha f_zero); [done|].
  destruct (forallb _ (estimated_matrix counts states alpha)) eqn:Hnn;
    [|done].
  destruct (np_allclose _ f_one) eqn:Hsum; [|done].
  cbn [negb]. intros [= <-]. split; [done|]. split; [done|].
  by apply passes_checks_rows.
Qed.

(** Past the test of [alpha] the function returns the matrix of its
    loop, or raises one of its two assertion errors. *)
Lemma transition_matrix_from_counts_outcome (counts : gmap Z (gmap Z N))
    (states : list Z) (alpha : F) :
  f_leb alpha f_zero = false →
  (transition_matrix_from_counts counts states alpha
   = Ok (estimated_matrix counts states alpha) ∧
   Forall passes_checks (estimated_matrix counts states alpha)) ∨
  transition_matrix_from_counts counts states alpha
  = Raise (AssertionError "Negative probabilities found") ∨
  transition_matrix_from_counts counts states alpha
  = Raise (AssertionError "Rows do not sum to 1").
Proof.
  intros Halpha. unfold transition_matrix_from_counts. rewrite Halpha.
  destruct (forallb _ (estimated_matrix counts states alpha)) eqn:Hnn;
    [|right; by left].
  destruct (np_allclose _ f_one) eqn:Hsum; [|right; by right].
  left. split; [done|]. by apply passes_checks_rows.
Qed.

(** The row after the loop over the items of the counter [m]: every
    counted destination that has a column holds its quotient there, the
    other columns still hold the zero of [np.zeros]. *)
Lemma write_counts_entries (n : nat) (idx : gmap Z nat) (alpha total : F)
    (m : gmap Z N) :
  (∀ d j, idx !! d = Some j → (j < n)%nat) →
  (∀ d1 d2 j, idx !! d1 = Some j → idx !! d2 = Some j → d1 = d2) →
  let row := map_fold (write_count idx alpha total) (replicate n f_zero) m in
  length row = n ∧
  ∀ d j, idx !! d = Some j →
    row !! j = Some (match m !! d with
                     | Some k => f_div (f_add (f_of_N k) alpha) total
                     | None => f_zero
                     end).
Proof.
  intros idx_lt idx_inj. cbv zeta.
  apply (map_fold_weak_ind (λ row m,
    length row = n ∧
    ∀ d j, idx !! d = Some j →
      row !! j = Some (match m !! d with
                       | Some k => f_div (f_add (f_of_N k) alpha) total
                       | None => f_zero
                       end))).
  - split; [by rewrite length_replicate|]. intros d j Hj.
    rewrite lookup_empty. apply lookup_replicate_2. eauto.
  - clear m. intros d0 k0 m row Hfresh [Hlen Hrow]. unfold write_count.
    destruct (idx !! d0) as [j0|] eqn:Hd0.
    + split; [by rewrite length_insert|]. intros d j Hj.
      destruct (decide (d0 = d)) as [->|Hne].
      * rewrite lookup_insert_eq. assert (j = j0) as -> by congruence.
        apply list_lookup_insert_eq. rewrite Hlen. eauto.
      * rewrite lookup_insert_ne by done.
        assert (j0 ≠ j) by (intros ->; eauto).
        rewrite list_lookup_insert_ne by done. eauto.
    + split; [done|]. intros d j Hj.
      rewrite lookup_insert_ne; [eauto|]. intros ->. congruence.
Qed.

Lemma smoothed_row_entries (states : list Z) (alpha : F) (c : gmap Z N) :
  f_eqb (f_zero : F) f_zero = true →
  let n := length states in
  let row := smoothed_row n (state_to_idx states) alpha c in
  length row = n ∧
  ∀ d j, state_to_idx states !! d = Some j →
    row !! j = Some (smoothed_share alpha (row_total n alpha c) (c !! d)).
Proof.
  intros Hzero n row.
  destruct (write_counts_entries n (state_to_idx states) alpha
              (row_total n alpha c) c
              (λ d j, state_to_idx_lt states d j)
              (λ d1 d2 j H1 H2, state_to_idx_inj states d1 d2 j H1 H2))
    as [Hlen Hrow].
  unfold row, smoothed_row. change (map ?f ?l) with (fmap f l).
  split; [by rewrite length_fmap|]. intros d j Hj.
  rewrite list_lookup_fmap, (Hrow d j Hj). simpl. unfold smoothed_share.
  destruct (c !! d) as [k|]; [done|].
  unfold fill_missing. by rewrite Hzero.
Qed.

Lemma estimate_row_length (counts : gmap Z (gmap Z N)) (states : list Z)
    (alpha : F) (s : Z) :
  length (estimate_row counts (length states) (state_to_idx states) alpha s)
  = length states.
Proof.
  unfold estimate_row. destruct (counts !! s) as [c|].
  - unfold smoothed_row. rewrite length_map.
    apply (write_counts_entries (length states) (state_to_idx states) alpha
             (row_total (length states) alpha c) c
             (λ d j, state_to_idx_lt states d j)
             (λ d1 d2 j H1 H2, state_to_idx_inj states d1 d2 j H1 H2)).
  - apply length_replicate.
Qed.

Lemma estimated_matrix_lookup (counts : gmap Z (gmap Z N)) (states : list Z)
    (alpha : F) (i : nat) (s : Z) :
  states !! i = Some s →
  estimated_matrix counts states alpha !! i
  = Some (estimate_row counts (length states) (state_to_idx states) alpha s).
Proof.
  intros Hi. unfold estimated_matrix. change (map ?f ?l) with (fmap f l).
  by rewrite list_lookup_fmap, Hi.
Qed.
Lemma estimated_matrix_has_shape (counts : gmap Z (gmap Z N))
    (states : list Z) (alpha : F) :
  has_shape (length states) (estimated_matrix counts states alpha) = true.
Proof.
  unfold has_shape, estimated_matrix.
  rewrite bool_decide_eq_true_2 by apply length_map. simpl.
  apply forallb_true_Forall. change (map ?f ?l) with (fmap f l).
  apply Forall_fmap, Forall_forall. intros s _. simpl.
  apply bool_decide_eq_true, estimate_row_length.
Qed.
End EstimatorOutcome.

(** In exact arithmetic the quotient of a counted destination is never
    zero, and the share is the quotient of the smoothed count, an absent
    count being 0. *)
Lemma smoothed_share_exact (alpha total : Qc) (count : option N) :
  (0 < alpha)%Qc → (0 < total)%Qc →
  smoothed_share alpha total count
  = ((Qc_of_Z (Z.of_N (default 0%N count)) + alpha) / total)%Qc.
Proof.
  intros Halpha Htotal. destruct count as [k|]; simpl.
  - unfold fill_missing. rewrite f_zero_Qc. cbn [f_eqb f_div f_add Qc_float].
    unfold f_of_N. cbn [f_of_Z Qc_float].
    rewrite bool_decide_eq_false_2; [done|].
    apply Qc_pos_ne, Qcdiv_pos; [|done].
    apply Qcplus_nonneg_pos; [apply Qc_of_N_nonneg | done].
  - cbn [f_div Qc_float]. change (Z.of_N 0) with 0. rewrite Z2Qc_inj_0.
    by rewrite Qcplus_0_l.
Qed.

Lemma alpha_check_positive (alpha : Qc) :
  f_leb alpha f_zero = false → (0 < alpha)%Qc.
Proof.
  rewrite f_zero_Qc. cbn [f_leb Qc_float]. intros Hle.
  apply bool_decide_eq_false in Hle. by apply Qcnot_le_lt.
Qed.

(** C1.  Whenever [transition_matrix_from_counts] returns, the row of a
    state [s] that is a key of the counts holds, in the column the code
    assigns to a destination [d], the quotient [(count(s,d) + alpha) /
    total] as the code computes it, with [total = sum of the counts of s +
    alpha * n]; for a destination without a count it holds [alpha /
    total].  This holds for every float type, binary64 included, up to the
    zero test of the fill loop, which replaces a quotient equal to zero by
    [alpha / total].  In exact arithmetic the entry is [(count(s,d) +
    alpha) / (sum + alpha * n)], an absent count being 0.  In the scenario
    [[1,2,3],[2,3,1],[1,2,1]] with [alpha = 1] the row of state 1 is
    [0.2, 0.6, 0.2] in binary64 and [1/5, 3/5, 1/5] in exact arithmetic. *)
Theorem transition_row_is_smoothed_count :
  (∀ (F : Type) (Fl : Float64 F) (counts : gmap Z (gmap Z N))
     (states : list Z) (alpha : F) (matrix : list (list F))
     (i : nat) (s : Z) (c : gmap Z N),
     f_eqb (f_zero : F) f_zero = true →
     transition_matrix_from_counts counts states alpha = Ok matrix →
     states !! i = Some s → counts !! s = Some c →
     ∃ row,
       matrix !! i = Some row ∧ length row = length states ∧
       ∀ d j, state_to_idx states !! d = Some j →
         row !! j
         = Some (smoothed_share alpha (row_total (length states) alpha c)
                   (c !! d))) ∧
  (∀ (counts : gmap Z (gmap Z N)) (states : list Z) (alpha : Qc)
     (matrix : list (list Qc)) (i j : nat) (s d : Z) (c : gmap Z N),
     transition_matrix_from_counts counts states alpha = Ok matrix →
     states !! i = Some s → counts !! s = Some c →
     state_to_idx states !! d = Some j →
     matrix !! i ≫= (.!! j)
     = Some ((Qc_of_Z (Z.of_N (default 0%N (c !! d))) + alpha)
             / (Qc_of_Z (Z.of_N (counter_total c))
                + alpha * Qc_of_Z (Z.of_nat (length states))))%Qc) ∧
  (∃ counts matrix,
     build_transition_counts [[1;2;3]; [2;3;1]; [1;2;1]] = Ok (counts, [1;2;3]) ∧
     transition_matrix_from_counts counts [1;2;3] 1%float = Ok matrix ∧
     matrix !! 0%nat = Some [0.2; 0.6; 0.2]%float) ∧
  (∃ counts matrix,
     build_transition_counts [[1;2;3]; [2;3;1]; [1;2;1]] = Ok (counts, [1;2;3]) ∧
     transition_matrix_from_counts counts [1;2;3] (1 : Qc) = Ok matrix ∧
     matrix !! 0%nat = Some [Q2Qc (1 # 5); Q2Qc (3 # 5); Q2Qc (1 # 5)]).
Proof.
  assert (∀ (F : Type) (Fl : Float64 F) (counts : gmap Z (gmap Z N))
     (states : list Z) (alpha : F) (matrix : list (list F))
     (i : nat) (s : Z) (c : gmap Z N),
     f_eqb (f_zero : F) f_zero = true →
     transition_matrix_from_counts counts states alpha = Ok matrix →
     states !! i = Some s → counts !! s = Some c →
     ∃ row,
       matrix !! i = Some row ∧ length row = length states ∧
       ∀ d j, state_to_idx states !! d = Some j →
         row !! j
         = Some (smoothed_share alpha (row_total (length states) alpha c)
                   (c !! d))) as Hgeneral.
  { intros F Fl counts states alpha matrix i s c Hzero Hret Hi Hc.
    apply transition_matrix_from_counts_Ok in Hret as (_ & -> & _).
    exists (smoothed_row (length states) (state_to_idx states) alpha c).
    split.
    - rewrite (estimated_matrix_lookup counts states alpha i s Hi).
      unfold estimate_row. by rewrite Hc.
    - by apply smoothed_row_entries. }
  split; [exact Hgeneral|]. split; [|split].
  - intros counts states alpha matrix i j s d c Hret Hi Hc Hj.
    assert (f_eqb (f_zero : Qc) f_zero = true) as Hzero.
    { rewrite f_zero_Qc. cbn [f_eqb Qc_float]. by apply bool_decide_eq_true. }
    destruct (Hgeneral Qc Qc_float counts states alpha matrix i s c
                Hzero Hret Hi Hc) as (row & Hrow & _ & Hentries).
    apply transition_matrix_from_counts_Ok in Hret as (Halpha & _).
    apply alpha_check_positive in Halpha.
    rewrite Hrow. simpl. rewrite (Hentries d j Hj).
    rewrite smoothed_share_exact; [done | done |].
    apply row_total_pos; [done|]. apply lookup_lt_Some in Hi. lia.
  - eexists _, _. split; [apply build_counts_scenario|].
    split; vm_compute; reflexivity.
  - eexists _, _. split; [apply build_counts_scenario|]. split.
    + vm_compute. reflexivity.
    + reflexivity.
Qed.

(** The end-to-end scenario in binary64. *)
Lemma transition_row_scenario_witness :
  ∃ row,
    estimated_matrix scenario_counts [1;2;3] 1%float !! 0%nat = Some row ∧
    length row = length [1;2;3] ∧
    ∀ d j, state_to_idx [1;2;3] !! d = Some j →
      row !! j
      = Some (smoothed_share 1%float
                (row_total (length [1;2;3]) 1%float {[ 2 := 2%N ]})
                (({[ 2 := 2%N ]} : gmap Z N) !! d)).
Proof.
  apply (proj1 transition_row_is_smoothed_count float _ scenario_counts
           [1;2;3] 1%float
           (estimated_matrix scenario_counts [1;2;3] 1%float) 0%nat 1
           {[ 2 := 2%N ]}).
  - reflexivity.
  - vm_compute. reflexivity.
  - reflexivity.
  - reflexivity.
Defined.

(** ** The assertions of [transition_matrix_from_counts] *)




(** ** The start counters, for every float type *)

Section StartCounts.
Context {F : Type} `{!Float64 F} (states : list Z).

Lemma count_start_length (sc : list F) (seq : list Z) :
  length (count_start (state_to_idx states) sc seq) = length sc.
Proof.
  unfold count_start. destruct seq as [|a seq]; [done|].
  destruct (state_to_idx states !! a); [by rewrite length_alter | done].
Qed.

Lemma count_start_lookup (sc : list F) (seq : list Z) (s : Z) (i : nat) :
  state_to_idx states !! s = Some i →
  count_start (state_to_idx states) sc seq !! i
  = if starts_at s seq then (λ c, f_add c f_one) <$> sc !! i else sc !! i.
Proof.
  intros Hs. unfold count_start, starts_at. destruct seq as [|a seq]; [done|].
  destruct (state_to_idx states !! a) as [ia|] eqn:Ha.
  - destruct (decide (a = s)) as [->|Hne].
    + assert (ia = i) as -> by congruence.
      rewrite bool_decide_eq_true_2 by done. apply list_lookup_alter_eq.
    + rewrite bool_decide_eq_false_2 by done.
      apply list_lookup_alter_ne. intros ->. apply Hne.
      by apply (state_to_idx_inj states a s i).
  - rewrite bool_decide_eq_false_2; [done|]. intros ->. congruence.
Qed.

(** The counter of a state after the loop over the batch: one [+= 1] for
    every sequence that starts with the state, and nothing else. *)
Lemma fold_count_start_entries (sequences : list (list Z)) (sc : list F)
    (s : Z) (i : nat) (x : F) :
  state_to_idx states !! s = Some i → sc !! i = Some x →
  fold_left (count_start (state_to_idx states)) sequences sc !! i
  = Some (Nat.iter (count_if (starts_at s) sequences) (λ c, f_add c f_one) x).
Proof.
  intros Hs. revert sc x.
  induction sequences as [|seq sequences IH]; intros sc x Hx; [done|].
  cbn [fold_left]. rewrite count_if_cons, Nat.add_comm, Nat.iter_add.
  apply IH. rewrite (count_start_lookup sc seq s i Hs), Hx.
  by destruct (starts_at s seq).
Qed.

Lemma fold_count_start_length (sequences : list (list Z)) (sc : list F) :
  length (fold_left (count_start (state_to_idx states)) sequences sc)
  = length sc.
Proof.
  revert sc. induction sequences as [|seq sequences IH]; intros sc; [done|].
  cbn [fold_left]. by rewrite IH, count_start_length.
Qed.

Lemma start_counts_NoDup (sequences : list (list Z)) :
  NoDup states →
  fold_left (count_start (state_to_idx states)) sequences
    (replicate (length states) f_zero)
  = map (λ s, float_count (count_if (starts_at s) sequences)) states.
Proof.
  intros Hnd. apply list_eq. intros i.
  change (map ?f ?l) with (fmap f l). rewrite list_lookup_fmap.
  destruct (states !! i) as [s|] eqn:Hi; simpl.
  - apply fold_count_start_entries.
    + by apply state_to_idx_NoDup.
    + apply lookup_replicate_2. by apply lookup_lt_Some in Hi.
  - apply lookup_ge_None.
    rewrite fold_count_start_length, length_replicate.
    by apply lookup_ge_None.
Qed.

(** The function returns the vector it has computed, and only if that
    vector passes both assertions. *)
Lemma empirical_start_distribution_Ok (sequences : list (list Z))
    (alpha : F) (probs : list F) :
  empirical_start_distribution sequences states alpha = Ok probs →
  f_leb alpha f_zero = false ∧ sequences ≠ [] ∧
  passes_checks probs ∧
  let start_counts :=
    fold_left (count_start (state_to_idx states)) sequences
      (replicate (length states) f_zero) in
  probs = map (λ c, f_div (f_add c alpha)
                      (f_add (np_sum start_counts)
                         (f_mul alpha (f_of_nat (length states)))))
            start_counts.
Proof.
  unfold empirical_start_distribution.
  destruct (f_leb alpha f_zero); [done|].
  destruct sequences as [|seq0 rest]; [done|].
  cbv zeta.
  destruct (forallb (f_leb f_zero) _) eqn:Hnn; [|done].
  destruct (np_isclose _ f_one) eqn:Hsum; [|done].
  cbn [negb]. intros [= <-]. split; [done|]. split; [done|].
  split; [|done]. split; [by apply forallb_true_Forall | done].
Qed.
Lemma empirical_start_distribution_outcome (sequences : list (list Z))
    (alpha : F) :
  f_leb alpha f_zero = false → sequences ≠ [] →
  (∃ probs,
     empirical_start_distribution sequences states alpha = Ok probs ∧
     length probs = length states ∧ passes_checks probs) ∨
  (∃ msg,
     empirical_start_distribution sequences states alpha
     = Raise (AssertionError msg)).
Proof.
  intros Halpha Hne.
  destruct (empirical_start_distribution sequences states alpha)
    as [probs|e] eqn:Hret.
  - left. exists probs. split; [done|].
    apply empirical_start_distribution_Ok in Hret as (_ & _ & Hchecks & ->).
    split; [|done].
    by rewrite length_map, fold_count_start_length, length_replicate.
  - right. unfold empirical_start_distribution in Hret.
    rewrite Halpha in Hret. destruct sequences as [|seq0 rest]; [done|].
    cbv zeta in Hret.
    destruct (negb (forallb (f_leb f_zero) _)); [injection Hret as <-; eauto|].
    destruct (negb (np_isclose _ f_one)); [injection Hret as <-; eauto|].
    done.
Qed.
End StartCounts.

(** C9.  Whenever [empirical_start_distribution] returns, the entry of a
    state [s] of the list is (number of sequences starting with [s] +
    alpha) divided by (the sum of these numbers over the states of the
    list + alpha * n): a sequence that is empty or starts outside the list
    counts in no numerator and not in the denominator.  For every float
    type and a duplicate-free state list the numbers are the counters the
    code keeps, built by [+= 1], and the quotient is the one the code
    computes; in exact arithmetic the entry is (number of sequences
    starting with [s] + alpha) / (number of sequences whose first element
    is in the state list + alpha * n).  In binary64 the batch
    [[1,2],[9],[],[2]] over the states [1,2,3] with [alpha = 1] gives
    [0.4, 0.4, 0.2]. *)
Theorem start_distribution_ignores_unknown_starts :
  (∀ (F : Type) (Fl : Float64 F) (sequences : list (list Z))
     (states : list Z) (alpha : F) (probs : list F),
     NoDup states →
     empirical_start_distribution sequences states alpha = Ok probs →
     let started s := float_count (count_if (starts_at s) sequences) in
     let known := np_sum (map started states) in
     probs
     = map (λ s, f_div (f_add (started s) alpha)
                   (f_add known (f_mul alpha (f_of_nat (length states)))))
         states) ∧
  (∀ (sequences : list (list Z)) (states : list Z) (alpha : Qc)
     (probs : list Qc),
     empirical_start_distribution sequences states alpha = Ok probs →
     ∀ s, s ∈ states →
       ∃ i, state_to_idx states !! s = Some i ∧ states !! i = Some s ∧
         probs !! i
         = Some ((Qc_of_Z (Z.of_nat (count_if (starts_at s) sequences)) + alpha)
                 / (Qc_of_Z (Z.of_nat (count_if (starts_in states) sequences))
                    + alpha * Qc_of_Z (Z.of_nat (length states))))%Qc) ∧
  empirical_start_distribution start_scenario scenario_states 1%float
  = Ok [0.4; 0.4; 0.2]%float.
Proof.
  split; [|split].
  - intros F Fl sequences states alpha probs Hnd Hret started known.
    apply empirical_start_distribution_Ok in Hret as (_ & _ & _ & ->).
    rewrite (start_counts_NoDup states sequences Hnd).
    fold started. fold known.
    change (map ?f ?l) with (fmap f l). by rewrite <-list_fmap_compose.
  - intros sequences states alpha probs Hret s Hs.
    pose proof Hret as Hok.
    apply empirical_start_distribution_Ok in Hok as (Halpha & Hne & Hchecks & Hp).
    apply alpha_check_positive in Halpha.
    assert (states ≠ []) as Hstates by (intros ->; by inversion Hs).
    destruct (empirical_start_distribution_spec states alpha Halpha sequences
                Hne Hstates) as (probs' & Hret' & _ & _ & _ & Hat).
    assert (probs' = probs) as -> by congruence.
    apply state_to_idx_is_Some in Hs as [i Hi]. exists i.
    split; [done|]. split; [by apply state_to_idx_Some|]. by apply Hat.
  - vm_compute. reflexivity.
Qed.

Lemma start_distribution_ignores_unknown_starts_witness :
  [0.4; 0.4; 0.2]%float
  = map (λ s, f_div (f_add (float_count (count_if (starts_at s) start_scenario))
                       1%float)
                (f_add (np_sum (map (λ s, float_count
                                            (count_if (starts_at s) start_scenario))
                                  scenario_states))
                   (f_mul 1%float (f_of_nat (length scenario_states)))))
      scenario_states.
Proof.
  apply (proj1 start_distribution_ignores_unknown_starts float _
           start_scenario scenario_states 1%float [0.4; 0.4; 0.2]%float).
  - repeat (apply NoDup_cons_2; [rewrite ?elem_of_cons, elem_of_nil; lia|]).
    apply NoDup_nil_2.
  - vm_compute. reflexivity.
Defined.

(** ** The posterior sampler, for every float type and generator *)

Section SamplerOutcome.
Context {F G : Type} `{!Float64 F} `{!Generator F G}.

Lemma sample_rows_Ok (counts : gmap Z (gmap Z N)) (n : nat)
    (idx : gmap Z nat) (alpha : F) (todo : list Z) (g : G)
    (rows : list (list F)) (g' : G) :
  sample_rows counts n idx alpha todo g = Ok (rows, g') →
  length rows = length todo ∧
  Forall (λ row, ∃ alpha_vec g1 g2,
            dirichlet_sample_row alpha_vec g1 = Ok (row, g2)) rows.
Proof.
  revert g rows. induction todo as [|state todo IH]; intros g rows.
  { intros [= <- <-]. split; [done | constructor]. }
  cbn [sample_rows].
  set (alpha_vec := match counts !! state with
                    | Some state_counts =>
                        posterior_concentration n idx alpha state_counts
                    | None => replicate n alpha
                    end).
  destruct (dirichlet_sample_row alpha_vec g) as [[row g1]|e] eqn:Hrow;
    run_result; [|done].
  destruct (sample_rows counts n idx alpha todo g1) as [[rest g2]|e] eqn:Hrest;
    run_result; [|done].
  intros [= <- <-]. destruct (IH g1 rest Hrest) as [Hlen Hall].
  split; [simpl; by rewrite Hlen|]. constructor; [|done].
  by exists alpha_vec, g, g1.
Qed.

(** The function returns the matrix it has drawn, one row per state, and
    only if its rows pass both assertions. *)
Lemma sample_transition_matrix_posterior_Ok (sequences : list (list Z))
    (states : list Z) (alpha : F) (rng : option G) (entropy : G)
    (trans_mat : list (list F)) (g' : G) :
  sample_transition_matrix_posterior sequences states alpha rng entropy
  = Ok (trans_mat, g') →
  f_leb alpha f_zero = false ∧
  (∃ counts observed,
     build_transition_counts sequences = Ok (counts, observed) ∧
     sample_rows counts (length states) (state_to_idx states) alpha states
       (default entropy rng) = Ok (trans_mat, g')) ∧
  length trans_mat = length states ∧
  Forall passes_checks trans_mat.
Proof.
  unfold sample_transition_matrix_posterior.
  destruct (f_leb alpha f_zero); [done|].
  destruct sequences as [|seq0 rest]; [done|].
  destruct (build_transition_counts (seq0 :: rest)) as [[counts observed]|e];
    run_result; [|done].
  destruct (sample_rows counts (length states) (state_to_idx states) alpha
              states (default entropy rng)) as [[rows g1]|e] eqn:Hrows;
    run_result; [|done].
  destruct (forallb _ rows) eqn:Hnn; [|done].
  destruct (np_allclose _ f_one) eqn:Hsum; [|done].
  cbn [negb]. intros [= <- <-]. split; [done|].
  split; [by exists counts, observed|].
  split; [by destruct (sample_rows_Ok _ _ _ _ _ _ _ _ Hrows)|].
  by apply passes_checks_rows.
Qed.
End SamplerOutcome.

(** ** Rows in exact arithmetic *)

Section ExactRows.
Local Open Scope Qc_scope.

Lemma np_isclose_zero_one : np_isclose (0 : Qc) f_one = false.
Proof. rewrite f_one_Qc. vm_compute. reflexivity. Qed.

(** A row that passes the assertions and sums to 0 or to 1 is a
    distribution. *)
Lemma passes_checks_exact (row : list Qc) :
  passes_checks row → np_sum row = 1 ∨ np_sum row = 0 →
  is_distribution row.
Proof.
  intros [Hnn Hclose] [Hsum|Hsum].
  - apply is_distribution_intro; [|done].
    apply Forall_impl with (1 := Hnn). intros x Hx.
    rewrite f_zero_Qc in Hx. cbn [f_leb Qc_float] in Hx.
    by apply bool_decide_eq_true in Hx.
  - rewrite Hsum, np_isclose_zero_one in Hclose. done.
Qed.

(** In exact arithmetic a row of [dirichlet_sample_row] sums to 1, or to
    0 when it is empty or its draws sum to 0. *)
Lemma dirichlet_row_sum {G : Type} `{!Generator Qc G}
    (alpha_vec : list Qc) (g : G) (row : list Qc) (g' : G) :
  dirichlet_sample_row alpha_vec g = Ok (row, g') →
  np_sum row = 1 ∨ np_sum row = 0.
Proof.
  unfold dirichlet_sample_row.
  destruct (existsb _ alpha_vec); [done|].
  destruct (forallb _ alpha_vec).
  - intros [= <- _]. rewrite np_sum_replicate, f_one_Qc.
    unfold f_of_nat. cbn [f_div f_of_Z Qc_float].
    destruct (length alpha_vec) as [|k].
    + right. change (Z.of_nat 0) with 0%Z. rewrite Z2Qc_inj_0. ring.
    + left. unfold Qcdiv. rewrite Qcmult_1_l. apply Qcmult_inv_r.
      apply Qc_pos_ne, Qc_of_nat_pos. lia.
  - destruct (rng_gamma alpha_vec g) as [[samples g1]|e]; run_result; [|done].
    intros [= <- _]. cbn [f_div Qc_float]. rewrite np_sum_div.
    destruct (decide (np_sum samples = 0)) as [->|Hne].
    + right. unfold Qcdiv. ring.
    + left. by apply Qcdiv_self.
Qed.
End ExactRows.



(** ** [dirichlet_sample_row] on draws that underflow *)

(** C5.  Past its two tests, [dirichlet_sample_row] returns the Gamma
    draws of the generator divided by their sum, whatever the float type.
    In binary64 the result need not be a probability vector: when the
    draws for the concentration [0.001, 0.001, 0.001] all underflow to
    [0.0], their sum is [0.0], every quotient is [0.0 / 0.0], and the
    function returns [nan, nan, nan], a vector with no entry [>= 0] and a
    sum that is not close to 1. *)
Theorem dirichlet_sample_row_of_underflowed_draws :
  (∀ (F G : Type) (Fl : Float64 F) (gen : Generator F G)
     (alpha_vec samples : list F) (g g' : G),
     existsb (λ a, f_ltb a f_zero) alpha_vec = false →
     forallb (λ a, f_eqb a f_zero) alpha_vec = false →
     rng_gamma alpha_vec g = Ok (samples, g') →
     dirichlet_sample_row alpha_vec g
     = Ok (map (λ x, f_div x (np_sum samples)) samples, g')) ∧
  (∀ (G : Type) (gen : Generator float G) (g g' : G),
     rng_gamma [0.001; 0.001; 0.001]%float g = Ok ([0; 0; 0]%float, g') →
     dirichlet_sample_row [0.001; 0.001; 0.001]%float g
     = Ok ([nan; nan; nan], g') ∧
     Forall (λ x, f_leb f_zero x = false) [nan; nan; nan] ∧
     np_isclose (np_sum [nan; nan; nan]) f_one = false).
Proof.
  assert (∀ (F G : Type) (Fl : Float64 F) (gen : Generator F G)
     (alpha_vec samples : list F) (g g' : G),
     existsb (λ a, f_ltb a f_zero) alpha_vec = false →
     forallb (λ a, f_eqb a f_zero) alpha_vec = false →
     rng_gamma alpha_vec g = Ok (samples, g') →
     dirichlet_sample_row alpha_vec g
     = Ok (map (λ x, f_div x (np_sum samples)) samples, g')) as Hgeneral.
  { intros F G Fl gen alpha_vec samples g g' Hneg Hzero Hdraw.
    unfold dirichlet_sample_row. by rewrite Hneg, Hzero, Hdraw. }
  split; [exact Hgeneral|]. intros G gen g g' Hdraw. split; [|split].
  - rewrite (Hgeneral float G _ gen [0.001; 0.001; 0.001]%float
               [0; 0; 0]%float g g'); [reflexivity | reflexivity..| exact Hdraw].
  - repeat constructor.
  - reflexivity.
Qed.

Lemma dirichlet_sample_row_of_underflowed_draws_witness :
  dirichlet_sample_row [0.001; 0.001; 0.001]%float 0%nat
  = Ok ([nan; nan; nan], 1%nat) ∧
  Forall (λ x, f_leb f_zero x = false) [nan; nan; nan] ∧
  np_isclose (np_sum [nan; nan; nan]) f_one = false.
Proof.
  apply (proj2 dirichlet_sample_row_of_underflowed_draws nat _ 0%nat 1%nat).
  reflexivity.
Defined.

(** ** Sampled sequences, for every float type and generator *)

Section SequenceOutcome.
Context {F G L : Type} `{!Float64 F} `{!Generator F G} `{!LogDomain F L}.

Lemma sample_walk_Ok (states : list Z) (trans_mat : list (list F))
    (n steps i : nat) (g : G) (rest : list Z) (g' : G) :
  sample_walk states trans_mat n steps i g = Ok (rest, g') →
  length rest = steps ∧ Forall (λ s, s ∈ states) rest.
Proof.
  revert i g rest. induction steps as [|steps IH]; intros i g rest.
  { intros [= <- <-]. split; [done | constructor]. }
  cbn [sample_walk].
  destruct (trans_mat !! i) as [row|]; run_result; [|done].
  destruct (rng_choice n row g) as [[j g1]|e]; run_result; [|done].
  destruct (states !! j) as [s|] eqn:Hs; run_result; [|done].
  destruct (sample_walk states trans_mat n steps j g1) as [[tail g2]|e] eqn:Ht;
    run_result; [|done].
  intros [= <- <-]. destruct (IH j g1 tail Ht) as [Hlen Hall].
  split; [simpl; by rewrite Hlen|]. constructor; [|done].
  apply list_elem_of_lookup. eauto.
Qed.

(** A returned sequence has the requested length and consists of states
    of the list. *)
Lemma sample_sequence_Ok (states : list Z) (start_probs : list F)
    (trans_mat : list (list F)) (len : Z) (rng : option G) (entropy : G)
    (seq : list Z) (g' : G) :
  sample_sequence states start_probs trans_mat len rng entropy = Ok (seq, g') →
  Z.of_nat (length seq) = len ∧ Forall (λ s, s ∈ states) seq.
Proof.
  unfold sample_sequence. case_bool_decide as Hlen; [done|].
  destruct (negb _ || negb _); [done|].
  destruct (rng_choice (length states) start_probs (default entropy rng))
    as [[i g1]|e]; run_result; [|done].
  destruct (states !! i) as [s|] eqn:Hs; run_result; [|done].
  destruct (sample_walk states trans_mat (length states) (Z.to_nat (len - 1))
              i g1) as [[rest g2]|e] eqn:Hrest; run_result; [|done].
  intros [= <- <-]. destruct (sample_walk_Ok _ _ _ _ _ _ _ _ Hrest) as [Hl Hall].
  split; [simpl; lia|]. constructor; [|done].
  apply list_elem_of_lookup. eauto.
Qed.

(** Every pair of a returned ensemble was produced by one round of the
    loop. *)
Lemma predictive_loop_Ok (sequences : list (list Z)) (states : list Z)
    (start_probs : list F) (alpha : F) (len : Z) (entropy : G)
    (todo : nat) (g : G) (sims : list (list Z * L)) (g' : G) :
  predictive_loop sequences states start_probs alpha len entropy todo g
  = Ok (sims, g') →
  length sims = todo ∧
  Forall (scored_under_its_matrix sequences states start_probs alpha len
            entropy) sims.
Proof.
  revert g sims. induction todo as [|todo IH]; intros g sims.
  { intros [= <- <-]. split; [done | constructor]. }
  cbn [predictive_loop].
  destruct (sample_transition_matrix_posterior sequences states alpha (Some g)
              entropy) as [[trans_mat g1]|e] eqn:Hmat; run_result; [|done].
  destruct (sample_sequence states start_probs trans_mat len (Some g1) entropy)
    as [[seq g2]|e] eqn:Hseq; run_result; [|done].
  destruct (logprob_of_sequence seq states start_probs trans_mat)
    as [lp|e] eqn:Hlp; run_result; [|done].
  destruct (predictive_loop sequences states start_probs alpha len entropy
              todo g2) as [[rest g3]|e] eqn:Hrest; run_result; [|done].
  intros [= <- <-]. destruct (IH g2 rest Hrest) as [Hlen Hall].
  split; [simpl; by rewrite Hlen|]. constructor; [|done].
  by exists g, trans_mat, g1, g2.
Qed.

Lemma posterior_predictive_sequences_Ok (sequences : list (list Z))
    (states : list Z) (start_probs : list F) (alpha : F) (len nsamples : Z)
    (rng : option G) (entropy : G) (sims : list (list Z * L)) (g' : G) :
  posterior_predictive_sequences sequences states start_probs alpha len
    nsamples rng entropy = Ok (sims, g') →
  Z.of_nat (length sims) = nsamples ∧
  Forall (λ sim,
      Z.of_nat (length sim.1) = len ∧ Forall (λ s, s ∈ states) sim.1 ∧
      scored_under_its_matrix sequences states start_probs alpha len
        entropy sim) sims.
Proof.
  unfold posterior_predictive_sequences.
  destruct (f_leb alpha f_zero); [done|].
  case_bool_decide as Hlen; [done|]. case_bool_decide as Hn; [done|].
  intros Hloop. apply predictive_loop_Ok in Hloop as [Hcount Hall].
  split; [lia|]. apply Forall_impl with (1 := Hall).
  intros sim Hsim. pose proof Hsim as (g1 & trans_mat & g2 & g3 & _ & Hseq & _).
  apply sample_sequence_Ok in Hseq as [? ?]. done.
Qed.
End SequenceOutcome.



(** ** Two runs on generators that draw alike *)

Section Reproducible.
Context {F G1 G2 : Type} {Fl : Float64 F}
  {gen1 : Generator F G1} {gen2 : Generator F G2}.
Context (R : G1 → G2 → Prop).
Hypothesis streams : same_stream R.

Lemma sample_walk_alike (states : list Z) (trans_mat : list (list F))
    (n steps i : nat) (g1 : G1) (g2 : G2) :
  R g1 g2 →
  same_outcome R (sample_walk states trans_mat n steps i g1)
    (sample_walk states trans_mat n steps i g2).
Proof.
  revert i g1 g2. induction steps as [|steps IH]; intros i g1 g2 HR; [done|].
  cbn [sample_walk].
  destruct (trans_mat !! i) as [row|]; run_result; [|done].
  pose proof (proj1 streams n row g1 g2 HR) as Hdraw.
  destruct (rng_choice n row g1) as [[j1 h1]|e1],
           (rng_choice n row g2) as [[j2 h2]|e2];
    cbn [same_outcome] in Hdraw; run_result; try done.
  destruct Hdraw as [<- HR'].
  destruct (states !! j1) as [s|]; run_result; [|done].
  pose proof (IH j1 h1 h2 HR') as Hrest.
  destruct (sample_walk states trans_mat n steps j1 h1) as [[r1 k1]|e1],
           (sample_walk states trans_mat n steps j1 h2) as [[r2 k2]|e2];
    cbn [same_outcome] in Hrest; run_result; try done.
  destruct Hrest as [<- ?]. done.
Qed.

Lemma sample_sequence_alike (states : list Z) (start_probs : list F)
    (trans_mat : list (list F)) (len : Z)
    (rng1 : option G1) (entropy1 : G1) (rng2 : option G2) (entropy2 : G2) :
  R (default entropy1 rng1) (default entropy2 rng2) →
  same_outcome R
    (sample_sequence states start_probs trans_mat len rng1 entropy1)
    (sample_sequence states start_probs trans_mat len rng2 entropy2).
Proof.
  intros HR. unfold sample_sequence. case_bool_decide; [done|].
  destruct (negb _ || negb _); [done|].
  pose proof (proj1 streams (length states) start_probs _ _ HR) as Hdraw.
  destruct (rng_choice (length states) start_probs (default entropy1 rng1))
    as [[j1 h1]|e1],
    (rng_choice (length states) start_probs (default entropy2 rng2))
    as [[j2 h2]|e2];
    cbn [same_outcome] in Hdraw; run_result; try done.
  destruct Hdraw as [<- HR'].
  destruct (states !! j1) as [s|]; run_result; [|done].
  pose proof (sample_walk_alike states trans_mat (length states)
                (Z.to_nat (len - 1)) j1 h1 h2 HR') as Hrest.
  destruct (sample_walk states trans_mat (length states) (Z.to_nat (len - 1))
              j1 h1) as [[r1 k1]|e1],
           (sample_walk states trans_mat (length states) (Z.to_nat (len - 1))
              j1 h2) as [[r2 k2]|e2];
    cbn [same_outcome] in Hrest; run_result; try done.
  destruct Hrest as [<- ?]. done.
Qed.

Lemma dirichlet_sample_row_alike (alpha_vec : list F) (g1 : G1) (g2 : G2) :
  R g1 g2 →
  same_outcome R (dirichlet_sample_row alpha_vec g1)
    (dirichlet_sample_row alpha_vec g2).
Proof.
  intros HR. unfold dirichlet_sample_row.
  destruct (existsb _ alpha_vec); [done|].
  destruct (forallb _ alpha_vec); [done|].
  pose proof (proj2 streams alpha_vec g1 g2 HR) as Hdraw.
  destruct (rng_gamma alpha_vec g1) as [[x1 h1]|e1],
           (rng_gamma alpha_vec g2) as [[x2 h2]|e2];
    cbn [same_outcome] in Hdraw; run_result; try done.
  destruct Hdraw as [<- ?]. done.
Qed.

Lemma sample_rows_alike (counts : gmap Z (gmap Z N)) (n : nat)
    (idx : gmap Z nat) (alpha : F) (todo : list Z) (g1 : G1) (g2 : G2) :
  R g1 g2 →
  same_outcome R (sample_rows counts n idx alpha todo g1)
    (sample_rows counts n idx alpha todo g2).
Proof.
  revert g1 g2. induction todo as [|state todo IH]; intros g1 g2 HR; [done|].
  cbn [sample_rows].
  set (alpha_vec := match counts !! state with
                    | Some state_counts =>
                        posterior_concentration n idx alpha state_counts
                    | None => replicate n alpha
                    end).
  pose proof (dirichlet_sample_row_alike alpha_vec g1 g2 HR) as Hrow.
  destruct (dirichlet_sample_row alpha_vec g1) as [[x1 h1]|e1],
           (dirichlet_sample_row alpha_vec g2) as [[x2 h2]|e2];
    cbn [same_outcome] in Hrow; run_result; try done.
  destruct Hrow as [<- HR'].
  pose proof (IH h1 h2 HR') as Hrest.
  destruct (sample_rows counts n idx alpha todo h1) as [[r1 k1]|e1],
           (sample_rows counts n idx alpha todo h2) as [[r2 k2]|e2];
    cbn [same_outcome] in Hrest; run_result; try done.
  destruct Hrest as [<- ?]. done.
Qed.

Lemma sample_transition_matrix_posterior_alike (sequences : list (list Z))
    (states : list Z) (alpha : F)
    (rng1 : option G1) (entropy1 : G1) (rng2 : option G2) (entropy2 : G2) :
  R (default entropy1 rng1) (default entropy2 rng2) →
  same_outcome R
    (sample_transition_matrix_posterior sequences states alpha rng1 entropy1)
    (sample_transition_matrix_posterior sequences states alpha rng2 entropy2).
Proof.
  intros HR. unfold sample_transition_matrix_posterior.
  destruct (f_leb alpha f_zero); [done|].
  destruct sequences as [|seq0 rest]; [done|].
  destruct (build_transition_counts (seq0 :: rest)) as [[counts observed]|e];
    run_result; [|done].
  pose proof (sample_rows_alike counts (length states) (state_to_idx states)
                alpha states _ _ HR) as Hrows.
  destruct (sample_rows counts (length states) (state_to_idx states) alpha
              states (default entropy1 rng1)) as [[m1 h1]|e1],
           (sample_rows counts (length states) (state_to_idx states) alpha
              states (default entropy2 rng2)) as [[m2 h2]|e2];
    cbn [same_outcome] in Hrows; run_result; try done.
  destruct Hrows as [<- ?].
  destruct (negb (forallb _ m1)); [done|].
  destruct (negb (np_allclose _ f_one)); done.
Qed.
End Reproducible.

(** A generator and the same generator keeping count of its draws draw
    alike. *)
Lemma counting_generator_same_stream {F G : Type} (gen : Generator F G) :
  @same_stream F G (G * nat) gen (counting_generator gen) (λ g s, s.1 = g).
Proof.
  split.
  - intros n p g [g' k] <-. cbn [rng_choice counting_generator fst snd].
    destruct (@rng_choice F G gen n p g') as [[i h]|e]; done.
  - intros shape g [g' k] <-. cbn [rng_gamma counting_generator fst snd].
    destruct (@rng_gamma F G gen shape g') as [[x h]|e]; done.
Qed.



(** ** Shape of the estimates *)

(** X3.  Whenever [transition_matrix_from_counts] returns, the matrix is
    square over the state list, with one row per state and one column per
    state, so that it passes the shape test of [sample_sequence]; this
    holds for every float type, whatever the counts, destinations outside
    the state list included. *)
Theorem transition_matrix_is_square {F : Type} `{!Float64 F}
    (counts : gmap Z (gmap Z N)) (states : list Z) (alpha : F)
    (matrix : list (list F)) :
  transition_matrix_from_counts counts states alpha = Ok matrix →
  length matrix = length states ∧
  Forall (λ row, length row = length states) matrix ∧
  has_shape (length states) matrix = true.
Proof.
  intros Hret. apply transition_matrix_from_counts_Ok in Hret as (_ & -> & _).
  assert (length (estimated_matrix counts states alpha) = length states)
    as Hrows by (unfold estimated_matrix; apply length_map).
  assert (Forall (λ row, length row = length states)
            (estimated_matrix counts states alpha)) as Hcols.
  { unfold estimated_matrix. change (map ?f ?l) with (fmap f l).
    apply Forall_fmap, Forall_forall. intros s _. simpl.
    apply estimate_row_length. }
  split; [done|]. split; [done|]. unfold has_shape.
  rewrite bool_decide_eq_true_2 by done. simpl.
  apply forallb_true_Forall, Forall_impl with (1 := Hcols).
  intros row Hrow. by apply bool_decide_eq_true.
Qed.

Lemma transition_matrix_is_square_witness :
  length (estimated_matrix overflow_counts [1; 2; 7] 0.5%float)
  = length [1; 2; 7] ∧
  Forall (λ row, length row = length [1; 2; 7])
    (estimated_matrix overflow_counts [1; 2; 7] 0.5%float) ∧
  has_shape (length [1; 2; 7])
    (estimated_matrix overflow_counts [1; 2; 7] 0.5%float) = true.
Proof.
  apply (transition_matrix_is_square overflow_counts [1; 2; 7] 0.5%float).
  vm_compute. reflexivity.
Defined.

(** X4.  Whenever [empirical_start_distribution] returns, the vector has
    one entry per state and passes the two assertions of the code: no
    entry fails [>= 0], and the sum passes [np.isclose(., 1.0)]; this
    holds for every float type.  In exact arithmetic the returned vector
    is non-negative and sums to 1 exactly. *)
Theorem start_distribution_is_a_distribution :
  (∀ (F : Type) (Fl : Float64 F) (sequences : list (list Z))
     (states : list Z) (alpha : F) (probs : list F),
     empirical_start_distribution sequences states alpha = Ok probs →
     length probs = length states ∧ passes_checks probs) ∧
  (∀ (sequences : list (list Z)) (states : list Z) (alpha : Qc)
     (probs : list Qc),
     empirical_start_distribution sequences states alpha = Ok probs →
     is_distribution probs).
Proof.
  assert (∀ (F : Type) (Fl : Float64 F) (sequences : list (list Z))
     (states : list Z) (alpha : F) (probs : list F),
     empirical_start_distribution sequences states alpha = Ok probs →
     length probs = length states ∧ passes_checks probs) as Hgeneral.
  { intros F Fl sequences states alpha probs Hret.
    apply empirical_start_distribution_Ok in Hret as (_ & _ & Hchecks & ->).
    split; [|done].
    by rewrite length_map, fold_count_start_length, length_replicate. }
  split; [exact Hgeneral|].
  intros sequences states alpha probs Hret.
  destruct (Hgeneral Qc Qc_float sequences states alpha probs Hret)
    as [Hlen Hchecks].
  pose proof Hret as Hok.
  apply empirical_start_distribution_Ok in Hok as (Halpha & Hne & _ & _).
  apply alpha_check_positive in Halpha.
  apply passes_checks_exact; [done|].
  destruct states as [|s0 states'].
  - right. destruct probs; [apply np_sum_nil | done].
  - left.
    destruct (empirical_start_distribution_spec (s0 :: states') alpha Halpha
                sequences Hne) as (probs' & Hret' & _ & _ & Hsum & _); [done|].
    congruence.
Qed.

Lemma start_distribution_is_a_distribution_witness :
  length [0.4; 0.4; 0.2]%float = length scenario_states ∧
  passes_checks [0.4; 0.4; 0.2]%float.
Proof.
  apply (proj1 start_distribution_is_a_distribution float _
           start_scenario scenario_states 1%float).
  vm_compute. reflexivity.
Defined.

(** ** The contract of [sample_transition_matrix_posterior] *)

(** X11.  [sample_transition_matrix_posterior] rejects [alpha <= 0] with
    [InvalidAlphaError], then an empty batch with [EmptyInputError]; a
    batch without a sequence of two states fails with the [NoStatesError]
    of [build_transition_counts], whatever the state list.  Whenever it
    returns, the batch has a sequence of two states or more and the
    matrix has one row per state of the list it was given, each row
    passing the two assertions.  This holds for every float type and
    every generator. *)
Theorem sample_transition_matrix_posterior_contract {F G : Type}
    `{!Float64 F} `{!Generator F G}
    (sequences : list (list Z)) (states : list Z) (alpha : F)
    (rng : option G) (entropy : G) :
  (f_leb alpha f_zero = true →
   sample_transition_matrix_posterior sequences states alpha rng entropy
   = Raise InvalidAlphaError) ∧
  (f_leb alpha f_zero = false → sequences = [] →
   sample_transition_matrix_posterior sequences states alpha rng entropy
   = Raise EmptyInputError) ∧
  (f_leb alpha f_zero = false → sequences ≠ [] →
   (∀ seq, seq ∈ sequences → (length seq < 2)%nat) →
   sample_transition_matrix_posterior sequences states alpha rng entropy
   = Raise NoStatesError) ∧
  (∀ (trans_mat : list (list F)) (g' : G),
     sample_transition_matrix_posterior sequences states alpha rng entropy
     = Ok (trans_mat, g') →
     (∃ seq, seq ∈ sequences ∧ (2 ≤ length seq)%nat) ∧
     length trans_mat = length states ∧
     Forall passes_checks trans_mat).
Proof.
  split; [|split; [|split]].
  - intros Halpha. unfold sample_transition_matrix_posterior.
    by rewrite Halpha.
  - intros Halpha ->. unfold sample_transition_matrix_posterior.
    by rewrite Halpha.
  - intros Halpha Hne Hshort. unfold sample_transition_matrix_posterior.
    rewrite Halpha.
    rewrite (build_transition_counts_short sequences Hne Hshort).
    by destruct sequences.
  - intros trans_mat g' Hret.
    apply sample_transition_matrix_posterior_Ok in Hret
      as (_ & (counts & observed & Hbuild & _) & Hlen & Hchecks).
    split; [|done].
    destruct (build_transition_counts_Ok _ _ _ Hbuild) as (_ & _ & Hmem & _).
    unfold build_transition_counts in Hbuild.
    destruct sequences as [|seq0 rest]; [done|].
    case_bool_decide as Hemp; [done|].
    apply set_choose_L in Hemp as [s Hs].
    apply fold_count_states in Hs as [Hs|(seq & Hin & Hlong & _)];
      [set_solver | eauto].
Qed.

Lemma sample_transition_matrix_posterior_contract_witness :
  sample_transition_matrix_posterior [[7]; []] scenario_states 1%float
    (Some 3%nat) 0%nat
  = Raise NoStatesError.
Proof.
  apply (proj1 (proj2 (proj2 (sample_transition_matrix_posterior_contract
                                [[7]; []] scenario_states 1%float
                                (Some 3%nat) 0%nat)))).
  - reflexivity.
  - done.
  - intros seq Hin.
    repeat (apply elem_of_cons in Hin as [->|Hin]; [simpl; lia|]).
    by inversion Hin.
Defined.

(** In binary64 a posterior draw can fail its assertion: with
    [alpha = 1e-5] the draws for the row of a state without observed
    transitions underflow to [0.0], the row is [nan, nan], and the
    non-negativity assertion fires. *)
Lemma sampled_matrix_assertion_fires_on_underflow :
  sample_transition_matrix_posterior [[1; 2]; [1; 2]] [1; 2] 1e-5%float
    (Some 7%nat) 0%nat
  = Raise (AssertionError "Negative probabilities in sampled matrix").
Proof. vm_compute. reflexivity. Qed.

(** ** The posterior predictive ensemble stays in the state space *)

(** X12.  Whenever [posterior_predictive_sequences] returns, every
    simulated sequence consists of states of the state list it was given,
    for every float type and every generator. *)
Theorem posterior_predictive_sequences_stay_in_state_space {F G L : Type}
    `{!Float64 F} `{!Generator F G} `{!LogDomain F L}
    (sequences : list (list Z)) (states : list Z) (start_probs : list F)
    (alpha : F) (len nsamples : Z) (rng : option G) (entropy : G)
    (sims : list (list Z * L)) (g' : G) :
  posterior_predictive_sequences sequences states start_probs alpha
    len nsamples rng entropy = Ok (sims, g') →
  Forall (λ sim, Forall (λ s, s ∈ states) sim.1) sims.
Proof.
  intros Hret. apply posterior_predictive_sequences_Ok in Hret as [_ Hall].
  apply Forall_impl with (1 := Hall). by intros sim (_ & ? & _).
Qed.

Lemma posterior_predictive_sequences_stay_in_state_space_witness :
  ∃ (sims : list (list Z * log_expr float)) (g' : nat),
    posterior_predictive_sequences [[1;2;3]; [2;3;1]] scenario_states
      scenario_start_binary64 1%float 3 2 (Some 5%nat) 0%nat = Ok (sims, g') ∧
    Forall (λ sim, Forall (λ s, s ∈ scenario_states) sim.1) sims.
Proof.
  eexists _, _. split; [vm_compute; reflexivity|].
  apply (posterior_predictive_sequences_stay_in_state_space
           (L := log_expr float) [[1;2;3]; [2;3;1]] scenario_states
           scenario_start_binary64 1%float 3 2 (Some 5%nat) 0%nat _ 17%nat).
  vm_compute. reflexivity.
Defined.

(** ** From the input file to the fitted model *)

(** The states of a batch the parser has returned. *)
Lemma parsed_batch_states `{!TextOps} (file : input_file)
    (min_state max_state : Z) (sequences : list (list Z))
    (counts : gmap Z (gmap Z N)) (states : list Z) :
  parse_sequences_from_file file min_state max_state = Returned sequences →
  build_transition_counts sequences = Ok (counts, states) →
  states ≠ [] ∧
  (∀ s, s ∈ states ↔ ∃ seq, seq ∈ sequences ∧ s ∈ seq) ∧
  Forall (λ s, min_state ≤ s ≤ max_state) states ∧
  count_if (starts_in states) sequences = length sequences.
Proof.
  intros Hparse Hbuild.
  destruct (parse_returned _ _ _ _ Hparse) as (_ & Hall & _).
  rewrite Forall_forall in Hall.
  destruct (build_transition_counts_Ok _ _ _ Hbuild) as (Hne & _ & Hmem & _).
  assert (∀ s, s ∈ states ↔ ∃ seq, seq ∈ sequences ∧ s ∈ seq) as Hvalues.
  { intros s. rewrite Hmem. split.
    - intros (seq & ? & _ & ?). eauto.
    - intros (seq & Hin & Hs). exists seq. split; [done|].
      split; [|done]. by destruct (Hall seq Hin). }
  split; [|split; [done|split]].
  - destruct sequences as [|seq rest]; [done|].
    destruct (Hall seq) as [Hlong _]; [left|].
    destruct seq as [|s seq]; [simpl in Hlong; lia|].
    assert (s ∈ states) as Hs.
    { apply Hvalues. exists (s :: seq). split; left. }
    intros ->. by inversion Hs.
  - apply Forall_forall. intros s Hs.
    apply Hvalues in Hs as (seq & Hin & Hs).
    destruct (Hall seq Hin) as [_ Hseq].
    rewrite Forall_forall in Hseq. by apply Hseq.
  - apply count_if_all, Forall_forall. intros seq Hin.
    destruct (Hall seq Hin) as [Hlong _].
    destruct seq as [|first_state seq]; [simpl in Hlong; lia|].
    cbn [starts_in]. apply bool_decide_eq_true, Hvalues.
    exists (first_state :: seq). split; [done | left].
Qed.

Lemma parsed_batch_counts `{!TextOps} (file : input_file)
    (min_state max_state : Z) (sequences : list (list Z)) :
  parse_sequences_from_file file min_state max_state = Returned sequences →
  sequences ≠ [] →
  ∃ counts states, build_transition_counts sequences = Ok (counts, states).
Proof.
  intros Hparse Hne.
  destruct (parse_returned _ _ _ _ Hparse) as (_ & Hall & _).
  apply build_transition_counts_returns.
  destruct sequences as [|seq rest]; [done|]. exists seq.
  split; [left|]. by apply Forall_cons in Hall as [[? _] _].
Qed.

(** X15.  Once the parser has returned two sequences or more and [alpha]
    has passed the test [alpha > 0] of [main], the statements that open
    [cmd_analyze], [cmd_predict] and [cmd_topk] can fail in one way only:
    by an assertion of an estimator.  When they complete, the states are
    exactly the values of the file's sequences, all of them within
    [min_state, max_state]; no sequence is left out of the start counts;
    the matrix is square over the states; and its rows and the start
    vector pass the assertions of the code.  This holds for every float
    type. *)
Theorem parsed_batch_is_fitted {F : Type} `{!Float64 F} `{!TextOps}
    (file : input_file) (min_state max_state : Z) (alpha : F)
    (sequences : list (list Z)) :
  parse_sequences_from_file file min_state max_state = Returned sequences →
  (2 ≤ length sequences)%nat →
  f_leb alpha f_zero = false →
  match cmd_analyze_fit file min_state max_state alpha with
  | Completed (fitted, counts, states, trans, start_probs) =>
      fitted = sequences ∧
      build_transition_counts sequences = Ok (counts, states) ∧
      states ≠ [] ∧
      (∀ s, s ∈ states ↔ ∃ seq, seq ∈ sequences ∧ s ∈ seq) ∧
      Forall (λ s, min_state ≤ s ≤ max_state) states ∧
      count_if (starts_in states) sequences = length sequences ∧
      has_shape (length states) trans = true ∧
      Forall passes_checks trans ∧
      length start_probs = length states ∧ passes_checks start_probs
  | ModelError e => ∃ msg, e = AssertionError msg
  | ParseError _ => False
  | TooFewSequences => False
  end.
Proof.
  intros Hparse Hlen Halpha.
  assert (sequences ≠ []) as Hne by (intros ->; simpl in Hlen; lia).
  destruct (parsed_batch_counts file min_state max_state sequences Hparse Hne)
    as (counts & states & Hbuild).
  destruct (parsed_batch_states file min_state max_state sequences counts
              states Hparse Hbuild) as (Hstates & Hvalues & Hrange & Hstarts).
  unfold cmd_analyze_fit. rewrite Hparse.
  rewrite bool_decide_eq_false_2 by lia. rewrite Hbuild.
  destruct (transition_matrix_from_counts_outcome counts states alpha Halpha)
    as [[Hret Hrows]|[Hret|Hret]]; rewrite Hret; [|eauto..].
  destruct (empirical_start_distribution_outcome states sequences alpha
              Halpha Hne) as [(probs & Hstart & Hpl & Hpc)|[msg Hstart]];
    rewrite Hstart; [|eauto].
  split; [done|]. split; [done|]. split; [done|]. split; [done|].
  split; [done|]. split; [done|].
  split; [by apply (estimated_matrix_has_shape counts states alpha)|].
  done.
Qed.

Lemma parsed_batch_is_fitted_witness :
  match cmd_analyze_fit parse_scenario 1 35 1%float with
  | Completed (fitted, counts, states, trans, start_probs) =>
      fitted = parse_scenario_sequences ∧
      build_transition_counts parse_scenario_sequences = Ok (counts, states) ∧
      states ≠ [] ∧
      (∀ s, s ∈ states ↔ ∃ seq, seq ∈ parse_scenario_sequences ∧ s ∈ seq) ∧
      Forall (λ s, 1 ≤ s ≤ 35) states ∧
      count_if (starts_in states) parse_scenario_sequences
      = length parse_scenario_sequences ∧
      has_shape (length states) trans = true ∧
      Forall passes_checks trans ∧
      length start_probs = length states ∧ passes_checks start_probs
  | ModelError e => ∃ msg, e = AssertionError msg
  | ParseError _ => False
  | TooFewSequences => False
  end.
Proof.
  apply (parsed_batch_is_fitted parse_scenario 1 35 1%float
           parse_scenario_sequences);
    [reflexivity | simpl; lia | reflexivity].
Defined.

(** X16.  Whenever [cmd_posterior] completes its simulation on the
    sequences the parser has returned, it holds [nsamples] sequences of
    [length] states, and every state of every simulated sequence is a
    value of the input file, hence within [min_state, max_state]; this
    holds for every float type and every generator. *)
Theorem cmd_posterior_simulates_values_of_the_file {F G L : Type}
    `{!Float64 F} `{!Generator F G} `{!LogDomain F L} `{!TextOps}
    (file : input_file) (min_state max_state : Z) (alpha : F)
    (len nsamples : Z) (rng entropy : G) (sequences : list (list Z))
    (sims : list (list Z * L)) :
  parse_sequences_from_file file min_state max_state = Returned sequences →
  cmd_posterior_sims file min_state max_state alpha len nsamples rng entropy
  = Completed sims →
  Z.of_nat (length sims) = nsamples ∧
  Forall (λ sim,
      Z.of_nat (length sim.1) = len ∧
      Forall (λ s, min_state ≤ s ≤ max_state ∧
                   ∃ seq, seq ∈ sequences ∧ s ∈ seq) sim.1) sims.
Proof.
  intros Hparse. unfold cmd_posterior_sims. rewrite Hparse.
  case_bool_decide as Hlen; [done|].
  destruct (build_transition_counts sequences) as [[counts states]|e] eqn:Hbuild;
    [|done].
  destruct (empirical_start_distribution sequences states alpha)
    as [start_probs|e]; [|done].
  destruct (posterior_predictive_sequences sequences states start_probs alpha
              len nsamples (Some rng) entropy) as [[sims' g']|e] eqn:Hsims;
    [|done].
  intros [= <-].
  destruct (parsed_batch_states file min_state max_state sequences counts
              states Hparse Hbuild) as (_ & Hvalues & Hrange & _).
  apply posterior_predictive_sequences_Ok in Hsims as [Hcount Hall].
  split; [done|]. apply Forall_impl with (1 := Hall).
  intros sim (Hl & Hin & _). split; [done|].
  apply Forall_impl with (1 := Hin). intros s Hs. split.
  - rewrite Forall_forall in Hrange. by apply Hrange.
  - by apply Hvalues.
Qed.

Lemma cmd_posterior_simulates_values_of_the_file_witness :
  ∃ sims : list (list Z * log_expr float),
    cmd_posterior_sims parse_scenario 1 35 1%float 3 2 5%nat 0%nat
    = Completed sims ∧
    Z.of_nat (length sims) = 2 ∧
    Forall (λ sim,
        Z.of_nat (length sim.1) = 3 ∧
        Forall (λ s, 1 ≤ s ≤ 35 ∧
                     ∃ seq, seq ∈ parse_scenario_sequences ∧ s ∈ seq) sim.1)
      sims.
Proof.
  eexists. split; [vm_compute; reflexivity|].
  apply (cmd_posterior_simulates_values_of_the_file (L := log_expr float)
           parse_scenario 1 35 1%float 3 2 5%nat 0%nat
           parse_scenario_sequences);
    [reflexivity | vm_compute; reflexivity].
Defined.
